(** * mcp-knowledge-base: ingestion, chunking, scoring and self-indexing

    A shallow embedding of the TypeScript sources.

    - [Js], [JsNumber], [JsString]: the JavaScript built-ins the code calls
      (String.prototype.slice and repeat; Math.min, Math.max and >= on
      numbers; trim, toLowerCase, includes, the classes \s and \w).
    - [Utils], [Similarity], [Retry], [Sanitize]: src/utils (chunkText,
      estimateTokenCount, calculateCosineSimilarity, retryWithBackoff,
      sanitizeText).
    - [DocumentService], [EmbeddingService], [WeaviateService],
      [SelfIndexingService]: the service classes; [PassMachine] is
      performIndexing at the level of its awaits.
    - [ChunkClaims], [RetryClaims], [EmbeddingClaims], [SearchClaims],
      [SchedulerClaims], [IsolationClaims] and the theorems of [Similarity]:
      the properties.

    Conventions.  JavaScript numbers that count characters, indices, attempts
    or milliseconds are integers in [Z]; numbers that are scores or vector
    components are IEEE binary64 values, Rocq's primitive [float].  Strings
    are sequences of code units; the model covers code units below 256
    ([ascii]) and, in [SelfIndexingService], the two pictographs that
    generateProjectStructure writes: each is kept as its four UTF-8 bytes and
    counted by [jsLength] as the two code units it is in JavaScript.  A loop whose exit is not evident is a fuel-indexed function
    whose guard is tested before fuel is consumed: [None] means the loop is
    still running after [fuel] iterations, [Some r] that it returned [r].
    A call that may throw returns a [result]. *)

From Stdlib Require Import ZArith List String Ascii Bool Lia Floats.
Import ListNotations.

#[local] Set Warnings "-register-all".
Local Open Scope Z_scope.

(** ** Outcomes of JavaScript calls *)

(** The values the code throws. *)
Inductive error : Type :=
| ExternalError (msg : string)
    (* raised by a collaborator: fs, child_process, the provider, the store *)
| JsError (msg : string)
    (* new Error(msg) *)
| AppError (message : string) (statusCode : Z) (code : string)
           (originalError : option error)
    (* new AppError(message, statusCode, code, { originalError }) *)
| Undefined.
    (* throw of a variable that was never assigned *)

(** A call either returns a value or throws. *)
Inductive result (A : Type) : Type :=
| Ok (a : A)
| Throw (e : error).
Arguments Ok {A} a.
Arguments Throw {A} e.

Definition isAppError (e : error) : bool :=
  match e with AppError _ _ _ _ => true | _ => false end.

(** A loop that is still running after every number of iterations. *)
Definition never_returns {A : Type} (run : nat -> option A) : Prop :=
  forall fuel, run fuel = None.

(** [xs.map((x, index) => f(x, index))]. *)
Fixpoint mapi_from {A B : Type} (f : A -> Z -> B) (i : Z) (xs : list A) : list B :=
  match xs with
  | [] => []
  | x :: rest => f x i :: mapi_from f (i + 1) rest
  end.

Definition mapi {A B : Type} (f : A -> Z -> B) (xs : list A) : list B :=
  mapi_from f 0 xs.

Definition zlength {A : Type} (xs : list A) : Z := Z.of_nat (List.length xs).

Definition strlen (s : string) : Z := Z.of_nat (String.length s).

(** ** JavaScript built-ins *)
Module Js.

(** [s.slice(b, e)]: a negative index counts from the end, both indices are
    clamped to [0, s.length], and an empty string results when the end does
    not exceed the start. *)
Definition slice (s : string) (b e : Z) : string :=
  let len := strlen s in
  let from := if b <? 0 then Z.max (len + b) 0 else Z.min b len in
  let to := if e <? 0 then Z.max (len + e) 0 else Z.min e len in
  substring (Z.to_nat from) (Z.to_nat (Z.max (to - from) 0)) s.

(** [s.repeat(n)]. *)
Fixpoint repeat (s : string) (n : nat) : string :=
  match n with
  | O => EmptyString
  | S k => String.append s (repeat s k)
  end.

End Js.

(** ** src/utils *)
Module Utils.

(** *** chunkText *)

(** The variables of the [while] loop: [start] and the [chunks] pushed so far. *)
Record chunk_state : Type := mkChunkState {
  cs_start : Z;
  cs_chunks : list string
}.

(** One iteration of the loop body:
    [end = Math.min(start + chunkSize, text.length)],
    [chunks.push(text.slice(start, end))], [start = end - overlap]. *)
Definition chunk_step (text : string) (chunkSize overlap : Z)
  (st : chunk_state) : chunk_state :=
  let end_ := Z.min (cs_start st + chunkSize) (strlen text) in
  {| cs_start := end_ - overlap;
     cs_chunks := cs_chunks st ++ [Js.slice text (cs_start st) end_] |}.

(** [while (start < text.length) { ... } return chunks]. *)
Fixpoint chunk_loop (fuel : nat) (text : string) (chunkSize overlap : Z)
  (st : chunk_state) : option (list string) :=
  if cs_start st <? strlen text then
    match fuel with
    | O => None
    | S fuel' => chunk_loop fuel' text chunkSize overlap
                   (chunk_step text chunkSize overlap st)
    end
  else Some (cs_chunks st).

Definition chunk_init : chunk_state := {| cs_start := 0; cs_chunks := [] |}.

Definition chunkText (fuel : nat) (text : string) (chunkSize overlap : Z)
  : option (list string) :=
  if strlen text <=? chunkSize then Some [text]
  else chunk_loop fuel text chunkSize overlap chunk_init.

(** The loop variables after [n] iterations of the body. *)
Fixpoint chunk_iter (n : nat) (text : string) (chunkSize overlap : Z)
  (st : chunk_state) : chunk_state :=
  match n with
  | O => st
  | S k => chunk_iter k text chunkSize overlap (chunk_step text chunkSize overlap st)
  end.

(** *** estimateTokenCount: [Math.ceil(text.length / 4)] *)
Definition estimateTokenCount (text : string) : Z :=
  (strlen text + 3) / 4.

End Utils.

(** ** Properties of chunkText *)
Module ChunkProps.
Import Utils.

(** Once an iteration has run with a positive overlap, the next start lies
    strictly before the end of the text. *)
Lemma chunk_step_start_lt text chunkSize overlap st :
  0 < overlap ->
  cs_start (chunk_step text chunkSize overlap st) < strlen text.
Proof.
  intros Ho. unfold chunk_step. simpl. lia.
Qed.

Lemma chunk_loop_stuck fuel : forall text chunkSize overlap st,
  0 < overlap ->
  cs_start st < strlen text ->
  chunk_loop fuel text chunkSize overlap st = None.
Proof.
  induction fuel as [|fuel IH]; intros text chunkSize overlap st Ho Hlt; simpl.
  - apply Z.ltb_lt in Hlt. now rewrite Hlt.
  - pose proof Hlt as Hb. apply Z.ltb_lt in Hb. rewrite Hb.
    apply IH; [assumption | now apply chunk_step_start_lt].
Qed.

Lemma chunk_iter_start_lt n : forall text chunkSize overlap st,
  0 < overlap ->
  cs_start st < strlen text ->
  cs_start (chunk_iter n text chunkSize overlap st) < strlen text.
Proof.
  induction n as [|n IH]; intros text chunkSize overlap st Ho Hlt; simpl.
  - exact Hlt.
  - apply IH; [assumption | now apply chunk_step_start_lt].
Qed.

(** With [overlap >= chunkSize] the start never moves forward. *)
Lemma chunk_step_start_le text chunkSize overlap st :
  chunkSize <= overlap ->
  cs_start (chunk_step text chunkSize overlap st) <= cs_start st.
Proof.
  intros Hc. unfold chunk_step. simpl. lia.
Qed.

Lemma chunk_iter_start_le n : forall text chunkSize overlap st,
  chunkSize <= overlap ->
  cs_start (chunk_iter n text chunkSize overlap st) <= cs_start st.
Proof.
  induction n as [|n IH]; intros text chunkSize overlap st Hc; simpl.
  - lia.
  - specialize (IH text chunkSize overlap (chunk_step text chunkSize overlap st) Hc).
    pose proof (chunk_step_start_le text chunkSize overlap st Hc). lia.
Qed.

Lemma chunk_loop_stuck_nonadvancing fuel : forall text chunkSize overlap st,
  chunkSize <= overlap ->
  cs_start st < strlen text ->
  chunk_loop fuel text chunkSize overlap st = None.
Proof.
  induction fuel as [|fuel IH]; intros text chunkSize overlap st Hc Hlt; simpl.
  - apply Z.ltb_lt in Hlt. now rewrite Hlt.
  - pose proof Hlt as Hb. apply Z.ltb_lt in Hb. rewrite Hb.
    apply IH; [assumption|].
    pose proof (chunk_step_start_le text chunkSize overlap st Hc). lia.
Qed.

Lemma chunk_iter_count n : forall text chunkSize overlap st,
  List.length (cs_chunks (chunk_iter n text chunkSize overlap st))
  = (List.length (cs_chunks st) + n)%nat.
Proof.
  induction n as [|n IH]; intros text chunkSize overlap st; simpl.
  - lia.
  - rewrite IH. unfold chunk_step. simpl. rewrite length_app. simpl. lia.
Qed.

End ChunkProps.

(** ** DocumentService.addDocumentWithChunks *)
Module DocumentService.
Import Utils.

Definition vector : Type := list float.

Inductive DocumentStatus : Type := PENDING | PROCESSING | COMPLETED | FAILED.

Record ChunkMetadata : Type := mkChunkMetadata {
  chunk_index : Z;
  start_position : Z;
  end_position : Z;
  overlap_with_previous : Z;
  overlap_with_next : Z;
  token_count : Z
}.

(** A chunk object; [id], [document_id] and [created_at] carry no position
    information and are left out.  [chunkEmbeddings[index]] is [undefined]
    past the end of the embeddings array, hence the [option]. *)
Record DocumentChunk : Type := mkDocumentChunk {
  dc_content : string;
  dc_embedding : option vector;
  dc_metadata : ChunkMetadata
}.

Record Document : Type := mkDocument {
  doc_title : string;
  doc_content : string;
  doc_chunks : list DocumentChunk;
  doc_embedding : option vector;
  doc_version : Z;
  doc_status : DocumentStatus
}.

Record CreateDocumentRequest : Type := mkRequest {
  req_title : string;
  req_content : string
}.

(** The callback of [textChunks.map((content, index) => ({ ... }))]. *)
Definition makeChunk (textChunks : list string) (chunkEmbeddings : list vector)
  (chunkSize overlap contentLength : Z) (content : string) (index : Z)
  : DocumentChunk :=
  {| dc_content := content;
     dc_embedding := nth_error chunkEmbeddings (Z.to_nat index);
     dc_metadata :=
       {| chunk_index := index;
          start_position := index * (chunkSize - overlap);
          end_position := Z.min ((index + 1) * chunkSize) contentLength;
          overlap_with_previous := if index >? 0 then overlap else 0;
          overlap_with_next :=
            if index <? zlength textChunks - 1 then overlap else 0;
          token_count := estimateTokenCount content |} |}.

Definition makeChunks (textChunks : list string) (chunkEmbeddings : list vector)
  (chunkSize overlap contentLength : Z) : list DocumentChunk :=
  mapi (makeChunk textChunks chunkEmbeddings chunkSize overlap contentLength)
       textChunks.

Definition additionFailed (e : error) : error :=
  AppError "Failed to add document to knowledge base" 500
           "DOCUMENT_ADDITION_FAILED" (Some e).

Section Service.

(** The two services handed to the constructor. *)
Variable generateChunkEmbeddings : list string -> result (list vector).
Variable generateEmbedding : string -> result vector.
Variable weaviate_addDocument : Document -> result unit.

(** [None]: chunkText is still looping after [fuel] iterations. *)
Definition addDocumentWithChunks (fuel : nat) (request : CreateDocumentRequest)
  (chunkSize overlap : Z) : option (result Document) :=
  match chunkText fuel (req_content request) chunkSize overlap with
  | None => None
  | Some textChunks =>
    Some
      match generateChunkEmbeddings textChunks with
      | Throw e => Throw (additionFailed e)
      | Ok chunkEmbeddings =>
        let chunks := makeChunks textChunks chunkEmbeddings chunkSize overlap
                        (strlen (req_content request)) in
        match generateEmbedding (req_content request) with
        | Throw e => Throw (additionFailed e)
        | Ok documentEmbedding =>
          let document :=
            {| doc_title := req_title request;
               doc_content := req_content request;
               doc_chunks := chunks;
               doc_embedding := Some documentEmbedding;
               doc_version := 1;
               doc_status := PROCESSING |} in
          match weaviate_addDocument document with
          | Throw e => Throw (additionFailed e)
          | Ok _ =>
            Ok {| doc_title := doc_title document;
                  doc_content := doc_content document;
                  doc_chunks := doc_chunks document;
                  doc_embedding := doc_embedding document;
                  doc_version := doc_version document;
                  doc_status := COMPLETED |}
          end
        end
      end
  end.

End Service.

(** Start, end and overlap-with-next of a chunk, as recorded. *)
Definition positions (c : DocumentChunk) : Z * Z * Z :=
  (start_position (dc_metadata c), end_position (dc_metadata c),
   overlap_with_next (dc_metadata c)).

(** The position round trip between neighbours. *)
Definition position_roundtrip (chunks : list DocumentChunk) : Prop :=
  forall i c1 c2,
    nth_error chunks i = Some c1 ->
    nth_error chunks (S i) = Some c2 ->
    end_position (dc_metadata c1) - overlap_with_next (dc_metadata c1)
    = start_position (dc_metadata c2).

(** Services that always succeed, for running the orchestrator on examples. *)
Definition okChunkEmbeddings (chunks : list string) : result (list vector) :=
  Ok (map (fun _ => [1%float]) chunks).
Definition okEmbedding (_ : string) : result vector := Ok [1%float].
Definition okStore (_ : Document) : result unit := Ok tt.

End DocumentService.

(** ** Chunking: termination, the 2,500-character scenario, positions *)
Module ChunkClaims.
Import Utils DocumentService ChunkProps.

(** The model does return when the window can leave the text: with no
    overlap the windows tile the content. *)
Example chunkText_tiles_without_overlap :
  chunkText 10 "abcdefgh" 3 0 = Some ["abc"; "def"; "gh"]%string.
Proof. reflexivity. Qed.

Example chunkText_short_content :
  chunkText 0 "abc" 1000 200 = Some ["abc"%string].
Proof. reflexivity. Qed.

(** C1 (evaluation of the code).  For content longer than [chunkSize] and
    [0 < overlap < chunkSize], the loop of chunkText never exits: after the
    window that ends at [len(content)] the next start is
    [len(content) - overlap], which is still before the end, so the guard
    [start < text.length] holds at every iteration, the function returns no
    chunk sequence for any number of iterations, and the array of chunks
    grows by one element per iteration (memory is unbounded in the model; an
    engine leaves the loop only by running out of it). *)
Theorem chunkText_overlap_never_returns (text : string) (chunkSize overlap : Z) :
  strlen text > chunkSize ->
  0 < overlap ->
  overlap < chunkSize ->
  never_returns (fun fuel => chunkText fuel text chunkSize overlap)
  /\ forall n,
       let st := chunk_iter n text chunkSize overlap chunk_init in
       cs_start st < strlen text /\ List.length (cs_chunks st) = n.
Proof.
  intros Hlen Ho Hoc. split.
  - intros fuel. unfold chunkText.
    assert (Hb : (strlen text <=? chunkSize) = false) by (apply Z.leb_gt; lia).
    rewrite Hb. apply chunk_loop_stuck; [assumption | simpl; lia].
  - intros n. cbv zeta. split.
    + apply chunk_iter_start_lt; [assumption | simpl; lia].
    + rewrite chunk_iter_count. reflexivity.
Qed.

Lemma chunkText_overlap_never_returns_witness :
  never_returns (fun fuel => chunkText fuel "abc" 2 1)
  /\ forall n,
       let st := chunk_iter n "abc" 2 1 chunk_init in
       cs_start st < strlen "abc" /\ List.length (cs_chunks st) = n.
Proof.
  apply (chunkText_overlap_never_returns "abc" 2 1); reflexivity.
Defined.

(** The 2,500-character document of the scenario. *)
Definition scenario_content : string := Js.repeat "a" 2500.

(** C2 (evaluation of the code).  On a 2,500-character document with
    [chunkSize = 1000] and [overlap = 200] chunkText returns nothing: the
    first three windows are the expected ones (lengths 1000, 1000, 900, the
    third ending at 2500), but the next start is 2300 < 2500, so a fourth and
    a fifth chunk of 200 characters follow, and so on without end;
    addDocumentWithChunks therefore never builds the chunk metadata. *)
Theorem scenario_2500_never_returns :
  strlen scenario_content = 2500
  /\ never_returns (fun fuel => chunkText fuel scenario_content 1000 200)
  /\ never_returns (fun fuel =>
       addDocumentWithChunks okChunkEmbeddings okEmbedding okStore fuel
         (mkRequest "doc" scenario_content) 1000 200)
  /\ (let st := chunk_iter 3 scenario_content 1000 200 chunk_init in
      cs_start st = 2300
      /\ map String.length (cs_chunks st) = [1000; 1000; 900]%nat)
  /\ (let st := chunk_iter 5 scenario_content 1000 200 chunk_init in
      cs_start st = 2300
      /\ map String.length (cs_chunks st) = [1000; 1000; 900; 200; 200]%nat).
Proof.
  assert (Hlen : strlen scenario_content = 2500) by (vm_compute; reflexivity).
  assert (Hdiv : never_returns (fun fuel => chunkText fuel scenario_content 1000 200)).
  { intros fuel. unfold chunkText. rewrite Hlen.
    change (2500 <=? 1000) with false. cbv iota.
    apply chunk_loop_stuck; [lia | rewrite Hlen; simpl; lia]. }
  split; [exact Hlen|]. split; [exact Hdiv|]. split.
  - intros fuel. unfold addDocumentWithChunks. simpl req_content.
    rewrite (Hdiv fuel). reflexivity.
  - split; vm_compute; split; reflexivity.
Qed.

(** C3 (evaluation of the code).  The recorded end position of chunk [i] is
    [min((i+1) * chunkSize, len)], which ignores the overlap, while the
    recorded start of chunk [i+1] is [(i+1) * (chunkSize - overlap)].  On the
    three windows of the 2,500-character scenario the metadata callback
    records (start, end, overlap_with_next) = (800, 2000, 200) for chunk 1 and
    start 1600 for chunk 2: 2000 - 200 is not 1600.  A run that does return
    (30 characters, chunkSize 10, overlap -2) shows the same mismatch in the
    document the orchestrator returns. *)
Theorem addDocumentWithChunks_position_mismatch :
  map positions
      (makeChunks
         [Js.slice scenario_content 0 1000; Js.slice scenario_content 800 1800;
          Js.slice scenario_content 1600 2500] [] 1000 200 2500)
    = [(0, 1000, 200); (800, 2000, 200); (1600, 2500, 0)]
  /\ exists doc,
       addDocumentWithChunks okChunkEmbeddings okEmbedding okStore 10
         (mkRequest "doc" (Js.repeat "a" 30)) 10 (-2) = Some (Ok doc)
       /\ map positions (doc_chunks doc)
          = [(0, 10, -2); (12, 20, -2); (24, 30, 0)]
       /\ ~ position_roundtrip (doc_chunks doc).
Proof.
  split; [vm_compute; reflexivity|].
  eexists. split; [vm_compute; reflexivity|]. split; [vm_compute; reflexivity|].
  intros H.
  specialize (H 1%nat _ _ eq_refl eq_refl). vm_compute in H. discriminate H.
Qed.

(** Chunk indices are the positions in the array: contiguous from 0. *)
Lemma mapi_from_nth_error {A B : Type} (f : A -> Z -> B) (xs : list A) :
  forall (i : Z) (n : nat) (b : B),
    nth_error (mapi_from f i xs) n = Some b ->
    exists a, nth_error xs n = Some a /\ b = f a (i + Z.of_nat n).
Proof.
  induction xs as [|x rest IH]; intros i n b H.
  - destruct n; discriminate H.
  - destruct n as [|n]; simpl in H.
    + injection H as <-. exists x. split; [reflexivity|]. f_equal. lia.
    + destruct (IH _ _ _ H) as [a [Ha ->]]. exists a. split; [exact Ha|].
      f_equal. lia.
Qed.

Lemma makeChunks_indices_contiguous textChunks embeddings chunkSize overlap len :
  forall (n : nat) (c : DocumentChunk),
    nth_error (makeChunks textChunks embeddings chunkSize overlap len) n = Some c ->
    chunk_index (dc_metadata c) = Z.of_nat n.
Proof.
  intros n c H. unfold makeChunks, mapi in H.
  destruct (mapi_from_nth_error _ _ _ _ _ H) as [a [_ ->]]. reflexivity.
Qed.

(** C4 (counterexample).  With [overlap = chunkSize = 2] on "abc" no error is
    signalled: the call produces no outcome at all. *)
Lemma chunkText_equal_overlap_no_rejection :
  never_returns (fun fuel => chunkText fuel "abc" 2 2).
Proof.
  intros fuel. unfold chunkText.
  change (strlen "abc" <=? 2) with false. cbv iota.
  apply chunk_loop_stuck_nonadvancing; [lia | vm_compute; reflexivity].
Qed.

(** C4 (amended).  chunkText has no validation step and no error path.  For
    [overlap >= chunkSize] and non-empty content longer than [chunkSize] the
    window start never advances (it stays at or below 0 at every iteration),
    so neither a chunk sequence nor a configuration error is produced. *)
Theorem chunkText_no_overlap_validation (text : string) (chunkSize overlap : Z) :
  chunkSize <= overlap ->
  0 < strlen text ->
  strlen text > chunkSize ->
  never_returns (fun fuel => chunkText fuel text chunkSize overlap)
  /\ forall n, cs_start (chunk_iter n text chunkSize overlap chunk_init) <= 0.
Proof.
  intros Hc Hpos Hlen. split.
  - intros fuel. unfold chunkText.
    assert (Hb : (strlen text <=? chunkSize) = false) by (apply Z.leb_gt; lia).
    rewrite Hb. apply chunk_loop_stuck_nonadvancing; [assumption | simpl; lia].
  - intros n. apply (chunk_iter_start_le n text chunkSize overlap chunk_init Hc).
Qed.

Lemma chunkText_no_overlap_validation_witness :
  never_returns (fun fuel => chunkText fuel "abcdef" 3 5)
  /\ forall n, cs_start (chunk_iter n "abcdef" 3 5 chunk_init) <= 0.
Proof.
  apply (chunkText_no_overlap_validation "abcdef" 3 5); vm_compute; congruence.
Defined.

End ChunkClaims.

(** ** JavaScript numbers as binary64 values *)
Module JsNumber.

#[local] Open Scope float_scope.

Definition is_neg_zero (x : float) : bool :=
  match classify x with NZero => true | _ => false end.

(** [Math.min(a, b)]: NaN when either argument is NaN; -0 is below +0. *)
Definition Math_min (a b : float) : float :=
  if is_nan a || is_nan b then nan
  else if a <? b then a
  else if b <? a then b
  else if is_neg_zero a then a else b.

(** [Math.max(a, b)]: NaN when either argument is NaN; +0 is above -0. *)
Definition Math_max (a b : float) : float :=
  if is_nan a || is_nan b then nan
  else if a <? b then b
  else if b <? a then a
  else if is_neg_zero a then b else a.

(** Membership in the closed interval [0,1]; false for NaN. *)
Definition in_unit_interval (x : float) : bool :=
  (0 <=? x) && (x <=? 1).

(** [a >= b] of JavaScript: false when either side is NaN. *)
Definition geb (a b : float) : bool := b <=? a.

End JsNumber.

(** *** Order facts on binary64 values, from the specification of the
    primitive comparisons *)
Module FloatOrder.
Import JsNumber.

Lemma SFcompare_antisym (p q : spec_float) :
  SFcompare q p = option_map CompOpp (SFcompare p q).
Proof.
  destruct p as [s1|s1| |s1 m1 e1], q as [s2|s2| |s2 m2 e2]; simpl;
    try reflexivity;
    try (destruct s1; reflexivity);
    try (destruct s2; reflexivity);
    try (destruct s1, s2; reflexivity).
  destruct s1, s2; simpl; try reflexivity.
  - rewrite (Z.compare_antisym e2 e1).
    destruct (e2 ?= e1)%Z; simpl; try reflexivity.
    do 2 f_equal. symmetry. exact (Pos.compare_cont_antisym m1 m2 Eq).
  - rewrite (Z.compare_antisym e2 e1).
    destruct (e2 ?= e1)%Z; simpl; try reflexivity.
    f_equal. symmetry. exact (Pos.compare_cont_antisym m1 m2 Eq).
Qed.

Lemma SFcompare_defined (p q : spec_float) :
  p <> S754_nan -> q <> S754_nan -> SFcompare p q <> None.
Proof.
  intros Hp Hq.
  destruct p, q; simpl; try congruence; try discriminate.
Qed.

Lemma not_nan_spec (x : float) : is_nan x = false -> Prim2SF x <> S754_nan.
Proof.
  unfold is_nan. rewrite FloatAxioms.eqb_spec. intros H Hn.
  rewrite Hn in H. discriminate H.
Qed.

Lemma ltb_leb (x y : float) :
  PrimFloat.ltb x y = true -> PrimFloat.leb x y = true.
Proof.
  rewrite FloatAxioms.ltb_spec, FloatAxioms.leb_spec. unfold SFltb, SFleb.
  destruct (SFcompare (Prim2SF x) (Prim2SF y)) as [[]|]; congruence.
Qed.

Lemma not_ltb_leb (x y : float) :
  is_nan x = false -> is_nan y = false ->
  PrimFloat.ltb x y = false -> PrimFloat.leb y x = true.
Proof.
  intros Hx Hy. rewrite FloatAxioms.ltb_spec, FloatAxioms.leb_spec.
  unfold SFltb, SFleb. rewrite (SFcompare_antisym (Prim2SF x) (Prim2SF y)).
  pose proof (SFcompare_defined _ _ (not_nan_spec x Hx) (not_nan_spec y Hy)) as Hd.
  destruct (SFcompare (Prim2SF x) (Prim2SF y)) as [[]|]; simpl; congruence.
Qed.

(** [Math.max(0, Math.min(1, x))] lands in [0,1] unless [x] is NaN. *)
Lemma clamp_in_unit_interval (x : float) :
  is_nan x = false ->
  in_unit_interval (Math_max 0 (Math_min 1 x)) = true.
Proof.
  intros Hx. unfold Math_min. change (is_nan 1) with false. rewrite Hx. simpl orb.
  cbv iota.
  assert (Hmax : forall m, is_nan m = false -> PrimFloat.leb m 1 = true ->
                           in_unit_interval (Math_max 0 m) = true).
  { intros m Hm Hle. unfold Math_max. change (is_nan 0) with false. rewrite Hm.
    simpl orb. cbv iota.
    destruct (PrimFloat.ltb 0 m) eqn:H0.
    - unfold in_unit_interval. rewrite (ltb_leb _ _ H0), Hle. reflexivity.
    - destruct (PrimFloat.ltb m 0); reflexivity. }
  destruct (PrimFloat.ltb 1 x) eqn:H1.
  - apply Hmax; reflexivity.
  - destruct (PrimFloat.ltb x 1) eqn:H2.
    + apply Hmax; [exact Hx | now apply ltb_leb].
    + change (is_neg_zero 1) with false. cbv iota.
      apply Hmax; [exact Hx | apply not_ltb_leb; [reflexivity | exact Hx | exact H1]].
Qed.

Lemma clamp_nan (x : float) :
  is_nan x = true -> is_nan (Math_max 0 (Math_min 1 x)) = true.
Proof.
  intros Hx. unfold Math_min. rewrite Hx, orb_true_r. reflexivity.
Qed.

End FloatOrder.

(** ** src/utils: calculateCosineSimilarity *)
Module Similarity.
Import JsNumber.

#[local] Open Scope float_scope.

(** The [for] loop over the indices of [vectorA]; both arrays have the same
    length when it runs. *)
Fixpoint accumulate (vectorA vectorB : list float) (dotProduct normA normB : float)
  : float * float * float :=
  match vectorA, vectorB with
  | a :: restA, b :: restB =>
      accumulate restA restB (dotProduct + a * b) (normA + a * a) (normB + b * b)
  | _, _ => (dotProduct, normA, normB)
  end.

(** [dotProduct / (Math.sqrt(normA) * Math.sqrt(normB))]. *)
Definition quotient (vectorA vectorB : list float) : float :=
  let '(dotProduct, normA, normB) := accumulate vectorA vectorB 0 0 0 in
  dotProduct / (sqrt normA * sqrt normB).

Definition calculateCosineSimilarity (vectorA vectorB : list float)
  : result float :=
  if negb (Nat.eqb (List.length vectorA) (List.length vectorB)) then
    Throw (JsError "Vectors must have the same length")
  else
    let similarity := quotient vectorA vectorB in
    Ok (Math_max 0 (Math_min 1 similarity)).

(** Sanity: identical and orthogonal directions. *)
Example cosine_identical :
  calculateCosineSimilarity [3; 4] [3; 4] = Ok 1.
Proof. reflexivity. Qed.

Example cosine_orthogonal :
  calculateCosineSimilarity [1; 0] [0; 1] = Ok 0.
Proof. reflexivity. Qed.

Example cosine_opposite_clamped :
  calculateCosineSimilarity [1; 0] [-1; 0] = Ok 0.
Proof. reflexivity. Qed.

(** C5 (counterexample).  A zero-magnitude vector gives 0/0 = NaN, which
    Math.min and Math.max pass through: the result is NaN, neither 0 nor in
    [0,1].  Vectors of different lengths are rejected with an Error. *)
Lemma cosine_zero_vector_is_nan_and_length_mismatch_throws :
  (exists r, calculateCosineSimilarity [0; 0] [1; 2] = Ok r
             /\ is_nan r = true
             /\ in_unit_interval r = false
             /\ PrimFloat.eqb r 0 = false)
  /\ calculateCosineSimilarity [1] [1; 2]
     = Throw (JsError "Vectors must have the same length").
Proof.
  split; [|reflexivity].
  eexists. split; [reflexivity|]. repeat split.
Qed.

(** C5 (amended).  Vectors of different lengths are rejected with an Error.
    For vectors of equal length the result is
    [Math.max(0, Math.min(1, dot(a,b) / (|a| * |b|)))], and it is a score in
    [0,1] whenever the quotient is a number. *)
Theorem calculateCosineSimilarity_clamped (vectorA vectorB : list float) :
  (List.length vectorA <> List.length vectorB ->
   calculateCosineSimilarity vectorA vectorB
   = Throw (JsError "Vectors must have the same length"))
  /\ (List.length vectorA = List.length vectorB ->
      calculateCosineSimilarity vectorA vectorB
      = Ok (Math_max 0 (Math_min 1 (quotient vectorA vectorB)))
      /\ (is_nan (quotient vectorA vectorB) = false ->
          in_unit_interval
            (Math_max 0 (Math_min 1 (quotient vectorA vectorB))) = true)).
Proof.
  unfold calculateCosineSimilarity. split.
  - intros Hne. apply Nat.eqb_neq in Hne. rewrite Hne. reflexivity.
  - intros Heq. apply Nat.eqb_eq in Heq. rewrite Heq. simpl negb. cbv iota.
    split; [reflexivity|]. apply FloatOrder.clamp_in_unit_interval.
Qed.

End Similarity.

(** ** src/utils: retryWithBackoff *)
Module Retry.

(** What the caller can observe of one call: the invocations of [fn] and the
    timers awaited, in order. *)
Inductive retry_event : Type :=
| Invoke (attempt : Z)
| Sleep (delay : Z).

Definition thrown (lastError : option error) : error :=
  match lastError with Some e => e | None => Undefined end.

Section Loop.
Context {T : Type}.

(** [fn k] is the outcome of the invocation made at attempt [k]; the loop
    invokes [fn] once per attempt.

    [for (attempt = 0; attempt <= maxRetries; attempt++)
       try { return await fn() }
       catch (error) { lastError = error;
                       if (attempt === maxRetries) throw lastError;
                       await sleep(baseDelay * Math.pow(2, attempt)) }
     throw lastError] *)
Fixpoint retry_loop (fuel : nat) (fn : nat -> result T)
  (maxRetries baseDelay attempt : Z) (lastError : option error)
  (trace : list retry_event) : option (list retry_event * result T) :=
  if attempt <=? maxRetries then
    match fuel with
    | O => None
    | S fuel' =>
      match fn (Z.to_nat attempt) with
      | Ok v => Some (trace ++ [Invoke attempt], Ok v)
      | Throw e =>
        if attempt =? maxRetries then
          Some (trace ++ [Invoke attempt], Throw e)
        else
          retry_loop fuel' fn maxRetries baseDelay (attempt + 1) (Some e)
            (trace ++ [Invoke attempt; Sleep (baseDelay * 2 ^ attempt)])
      end
    end
  else Some (trace, Throw (thrown lastError)).

Definition retryWithBackoff (fuel : nat) (fn : nat -> result T)
  (maxRetries baseDelay : Z) : option (list retry_event * result T) :=
  retry_loop fuel fn maxRetries baseDelay 0 None [].

(** The loop runs at most [maxRetries + 1] times: that much fuel always
    suffices. *)
Definition enough_fuel (maxRetries : Z) : nat := Z.to_nat (maxRetries + 1).

Definition retryWithBackoff_run (fn : nat -> result T) (maxRetries baseDelay : Z)
  : list retry_event * result T :=
  match retryWithBackoff (enough_fuel maxRetries) fn maxRetries baseDelay with
  | Some r => r
  | None => ([], Throw Undefined)
  end.

End Loop.

(** [from, from + 1, ..., from + n - 1]. *)
Fixpoint zrange (from : Z) (n : nat) : list Z :=
  match n with
  | O => []
  | S k => from :: zrange (from + 1) k
  end.

(** A failed attempt that is followed by a retry. *)
Definition failed_attempt (baseDelay : Z) (attempt : Z) : list retry_event :=
  [Invoke attempt; Sleep (baseDelay * 2 ^ attempt)].

Definition invocations (trace : list retry_event) : list Z :=
  flat_map (fun ev => match ev with Invoke k => [k] | Sleep _ => [] end) trace.

Definition delays (trace : list retry_event) : list Z :=
  flat_map (fun ev => match ev with Invoke _ => [] | Sleep d => [d] end) trace.

End Retry.

Module RetryProps.
Import Retry.

Lemma retry_loop_total {T : Type} (fn : nat -> result T) maxRetries baseDelay :
  forall fuel attempt lastError trace,
    (Z.to_nat (maxRetries + 1 - attempt) <= fuel)%nat ->
    exists r, retry_loop fuel fn maxRetries baseDelay attempt lastError trace = Some r.
Proof.
  induction fuel as [|fuel IH]; intros attempt lastError trace Hfuel; simpl.
  - destruct (attempt <=? maxRetries) eqn:Hle; [|eauto].
    apply Z.leb_le in Hle. lia.
  - destruct (attempt <=? maxRetries) eqn:Hle; [|eauto].
    destruct (fn (Z.to_nat attempt)) as [v|e]; [eauto|].
    destruct (attempt =? maxRetries); [eauto|].
    apply IH. apply Z.leb_le in Hle. lia.
Qed.

Lemma retryWithBackoff_total {T : Type} (fn : nat -> result T) maxRetries baseDelay fuel :
  (enough_fuel maxRetries <= fuel)%nat ->
  exists r, retryWithBackoff fuel fn maxRetries baseDelay = Some r.
Proof.
  intros H. apply retry_loop_total. unfold enough_fuel in H.
  replace (maxRetries + 1 - 0) with (maxRetries + 1) by lia. exact H.
Qed.

(** An operation that fails at every invocation, from attempt [attempt] on. *)
Lemma retry_loop_always_failing {T : Type} (errs : nat -> error) maxRetries baseDelay :
  forall (n : nat) fuel attempt lastError trace,
    0 <= attempt ->
    maxRetries = attempt + Z.of_nat n ->
    (n < fuel)%nat ->
    retry_loop (T := T) fuel (fun k => Throw (errs k)) maxRetries baseDelay
      attempt lastError trace
    = Some (trace ++ flat_map (failed_attempt baseDelay) (zrange attempt n)
                  ++ [Invoke maxRetries],
            Throw (errs (Z.to_nat maxRetries))).
Proof.
  induction n as [|n IH]; intros fuel attempt lastError trace H0 Hmax Hfuel.
  - destruct fuel as [|fuel]; [lia|]. simpl.
    assert (attempt = maxRetries) as -> by lia.
    rewrite Z.leb_refl, Z.eqb_refl. reflexivity.
  - destruct fuel as [|fuel]; [lia|]. simpl.
    assert (Hle : (attempt <=? maxRetries) = true) by (apply Z.leb_le; lia).
    assert (Hne : (attempt =? maxRetries) = false) by (apply Z.eqb_neq; lia).
    rewrite Hle, Hne.
    rewrite (IH fuel (attempt + 1) _ _); [|lia|lia|lia].
    unfold failed_attempt at 2. rewrite <- !app_assoc. reflexivity.
Qed.

Lemma invocations_app t1 t2 : invocations (t1 ++ t2) = invocations t1 ++ invocations t2.
Proof. unfold invocations. apply flat_map_app. Qed.

Lemma delays_app t1 t2 : delays (t1 ++ t2) = delays t1 ++ delays t2.
Proof. unfold delays. apply flat_map_app. Qed.

Lemma invocations_failed baseDelay : forall n from,
  invocations (flat_map (failed_attempt baseDelay) (zrange from n)) = zrange from n.
Proof.
  induction n as [|n IH]; intros from; simpl; [reflexivity|].
  now rewrite IH.
Qed.

Lemma delays_failed baseDelay : forall n from,
  delays (flat_map (failed_attempt baseDelay) (zrange from n))
  = map (fun k => baseDelay * 2 ^ k) (zrange from n).
Proof.
  induction n as [|n IH]; intros from; simpl; [reflexivity|].
  now rewrite IH.
Qed.

Lemma zrange_length : forall n from, List.length (zrange from n) = n.
Proof.
  induction n as [|n IH]; intros from; simpl; [reflexivity|]. now rewrite IH.
Qed.

(** A value returned by the loop is the value of one of the first
    [maxRetries + 1] invocations. *)
Lemma retry_loop_ok_inv {T : Type} (fn : nat -> result T) (maxRetries baseDelay : Z) :
  forall fuel attempt lastError trace out v,
    0 <= attempt ->
    retry_loop fuel fn maxRetries baseDelay attempt lastError trace = Some (out, Ok v) ->
    exists k, (Z.of_nat k <= maxRetries) /\ fn k = Ok v.
Proof.
  induction fuel as [|fuel IH]; intros attempt lastError trace out v H0 H; simpl in H.
  - destruct (attempt <=? maxRetries); discriminate H.
  - destruct (attempt <=? maxRetries) eqn:Hle; [|discriminate H].
    apply Z.leb_le in Hle.
    destruct (fn (Z.to_nat attempt)) as [w|e] eqn:Hfn.
    + injection H as _ <-. exists (Z.to_nat attempt). split; [lia | exact Hfn].
    + destruct (attempt =? maxRetries); [discriminate H|].
      eapply IH; [|exact H]. lia.
Qed.

End RetryProps.

Module RetryClaims.
Import Retry RetryProps.

(** An operation whose failures can be told apart. *)
Definition numbered_failure (k : nat) : error :=
  ExternalError (nth k ["first"; "second"; "third"; "fourth"]%string "later"%string).

(** The loop returns the first success and stops. *)
Example retry_succeeds_on_second_attempt :
  retryWithBackoff 4
    (fun k => if Nat.eqb k 1 then Ok 7 else Throw (numbered_failure k)) 3 1000
  = Some ([Invoke 0; Sleep 1000; Invoke 1], Ok 7).
Proof. reflexivity. Qed.

(** C6 (counterexample).  With [maxRetries = 3] an operation that always
    fails is invoked four times, not three; a wait follows the first three
    failures only (1000, 2000, 4000 ms), none follows the last; and the error
    raised is the one of the fourth invocation, not of the first. *)
Lemma retry_three_retries_four_invocations :
  exists trace e,
    retryWithBackoff 4 (fun k => @Throw unit (numbered_failure k)) 3 1000
    = Some (trace, Throw e)
    /\ trace = [Invoke 0; Sleep 1000; Invoke 1; Sleep 2000; Invoke 2; Sleep 4000;
                Invoke 3]
    /\ List.length (invocations trace) = 4%nat
    /\ delays trace = [1000; 2000; 4000]
    /\ e = numbered_failure 3
    /\ e <> numbered_failure 0.
Proof.
  do 2 eexists. split; [reflexivity|]. repeat split. discriminate.
Qed.

(** C6 (amended).  For an operation that fails on every invocation and
    [maxRetries >= 0], retryWithBackoff returns (the loop needs at most
    [maxRetries + 1] iterations), having invoked the operation exactly
    [maxRetries + 1] times (attempts 0 .. maxRetries: one initial attempt and
    [maxRetries] retries), having waited [baseDelay * 2^attempt] after each
    failed attempt except the last, and it raises the error of the last
    invocation unwrapped. *)
Theorem retryWithBackoff_always_failing {T : Type} (errs : nat -> error)
  (maxRetries baseDelay : Z) (fuel : nat) :
  0 <= maxRetries ->
  (enough_fuel maxRetries <= fuel)%nat ->
  exists trace,
    retryWithBackoff (T := T) fuel (fun k => Throw (errs k)) maxRetries baseDelay
    = Some (trace, Throw (errs (Z.to_nat maxRetries)))
    /\ trace = flat_map (failed_attempt baseDelay) (zrange 0 (Z.to_nat maxRetries))
               ++ [Invoke maxRetries]
    /\ invocations trace = zrange 0 (Z.to_nat maxRetries + 1)
    /\ List.length (invocations trace) = (Z.to_nat maxRetries + 1)%nat
    /\ delays trace
       = map (fun k => baseDelay * 2 ^ k) (zrange 0 (Z.to_nat maxRetries)).
Proof.
  intros Hmax Hfuel. unfold enough_fuel in Hfuel. eexists. split.
  - unfold retryWithBackoff.
    rewrite (retry_loop_always_failing errs maxRetries baseDelay
               (Z.to_nat maxRetries) fuel 0 None []); [reflexivity|lia|lia|lia].
  - simpl app. split; [reflexivity|].
    assert (Hinv : invocations
              (flat_map (failed_attempt baseDelay) (zrange 0 (Z.to_nat maxRetries))
               ++ [Invoke maxRetries])
            = zrange 0 (Z.to_nat maxRetries + 1)).
    { rewrite invocations_app, invocations_failed. simpl.
      replace maxRetries with (0 + Z.of_nat (Z.to_nat maxRetries)) at 2 by lia.
      generalize (Z.to_nat maxRetries) as n. generalize 0 as from.
      intros from n. revert from.
      induction n as [|n IH]; intros from; simpl.
      - f_equal. lia.
      - f_equal. rewrite <- IH. do 2 f_equal. lia. }
    split; [exact Hinv|]. split.
    + rewrite Hinv. apply zrange_length.
    + rewrite delays_app, delays_failed. simpl. apply app_nil_r.
Qed.

Lemma retryWithBackoff_always_failing_witness :
  exists trace,
    retryWithBackoff (T := unit) 3 (fun k => Throw (numbered_failure k)) 2 500
    = Some (trace, Throw (numbered_failure 2))
    /\ trace = flat_map (failed_attempt 500) (zrange 0 2) ++ [Invoke 2]
    /\ invocations trace = zrange 0 3
    /\ List.length (invocations trace) = 3%nat
    /\ delays trace = map (fun k => 500 * 2 ^ k) (zrange 0 2).
Proof.
  apply (retryWithBackoff_always_failing numbered_failure 2 500 3);
    [lia | vm_compute; lia].
Defined.

End RetryClaims.

(** ** JavaScript strings: character classes, trim, toLowerCase, includes *)
Module JsString.

#[local] Open Scope nat_scope.

(** [\s] and the set removed by [trim], on code units below 256:
    TAB, LF, VT, FF, CR, SPACE and NO-BREAK SPACE. *)
Definition is_whitespace (c : ascii) : bool :=
  let n := nat_of_ascii c in
  ((9 <=? n) && (n <=? 13)) || (n =? 32) || (n =? 160).

(** [\w]: ASCII letters, digits and underscore. *)
Definition is_word (c : ascii) : bool :=
  let n := nat_of_ascii c in
  ((48 <=? n) && (n <=? 57)) || ((65 <=? n) && (n <=? 90))
  || ((97 <=? n) && (n <=? 122)) || (n =? 95).

(** The literal characters of the class [.,!?-]. *)
Definition is_basic_punctuation (c : ascii) : bool :=
  let n := nat_of_ascii c in
  (n =? 46) || (n =? 44) || (n =? 33) || (n =? 63) || (n =? 45).

Fixpoint trimStart (s : string) : string :=
  match s with
  | EmptyString => EmptyString
  | String c rest => if is_whitespace c then trimStart rest else s
  end.

Fixpoint trimEnd (s : string) : string :=
  match s with
  | EmptyString => EmptyString
  | String c rest =>
      match trimEnd rest with
      | EmptyString => if is_whitespace c then EmptyString else String c EmptyString
      | kept => String c kept
      end
  end.

Definition trim (s : string) : string := trimEnd (trimStart s).

(** Truthiness of a string: non-empty. *)
Definition truthy (s : string) : bool :=
  match s with EmptyString => false | String _ _ => true end.

(** [toLowerCase] on code units below 256: A-Z, and U+00C0..U+00DE except
    the multiplication sign U+00D7. *)
Definition lower_char (c : ascii) : ascii :=
  let n := nat_of_ascii c in
  if ((65 <=? n) && (n <=? 90))
     || ((192 <=? n) && (n <=? 222) && negb (n =? 215))
  then ascii_of_nat (n + 32) else c.

Fixpoint toLowerCase (s : string) : string :=
  match s with
  | EmptyString => EmptyString
  | String c rest => String (lower_char c) (toLowerCase rest)
  end.

(** [s.includes(q)]: [q] occurs in [s] at some position; the empty string
    occurs in every string. *)
Fixpoint includes (s q : string) : bool :=
  if prefix q s then true
  else match s with
       | EmptyString => false
       | String _ rest => includes rest q
       end.

End JsString.

(** ** src/utils: sanitizeText *)
Module Sanitize.
Import JsString.

(** [replace(/\s+/g, " ")]: every maximal run of whitespace becomes one
    space.  [in_run] tells that the previous character was whitespace. *)
Fixpoint collapse_whitespace (in_run : bool) (s : string) : string :=
  match s with
  | EmptyString => EmptyString
  | String c rest =>
      if is_whitespace c then
        if in_run then collapse_whitespace true rest
        else String " "%char (collapse_whitespace true rest)
      else String c (collapse_whitespace false rest)
  end.

(** [replace(/[^\w\s.,!?-]/g, "")]. *)
Fixpoint remove_special (s : string) : string :=
  match s with
  | EmptyString => EmptyString
  | String c rest =>
      if is_word c || is_whitespace c || is_basic_punctuation c
      then String c (remove_special rest)
      else remove_special rest
  end.

Definition sanitizeText (text : string) : string :=
  trim (remove_special (collapse_whitespace false text)).

Example sanitizeText_example :
  sanitizeText "  Hello,   <b>world</b>!  " = "Hello, bworldb!"%string.
Proof. reflexivity. Qed.

Example sanitizeText_blank :
  sanitizeText (String (ascii_of_nat 9) (String (ascii_of_nat 10) " ")) = ""%string.
Proof. reflexivity. Qed.

End Sanitize.

(** ** EmbeddingService *)
Module EmbeddingService.
Import JsString Sanitize Retry.

Definition vector : Type := list float.

Definition emptyText : error :=
  AppError "Text cannot be empty" 400 "EMPTY_TEXT" None.

Definition noValidTexts : error :=
  AppError "No valid texts provided" 400 "NO_VALID_TEXTS" None.

(** The [catch] of both methods: an AppError is rethrown as it is, anything
    else is wrapped. *)
Definition rethrow (message code : string) (e : error) : error :=
  if isAppError e then e else AppError message 500 code (Some e).

Definition catchSingle {A : Type} (r : result A) : result A :=
  match r with
  | Ok a => Ok a
  | Throw e =>
      Throw (rethrow "Failed to generate embedding" "EMBEDDING_GENERATION_FAILED" e)
  end.

Definition catchBatch {A : Type} (r : result A) : result A :=
  match r with
  | Ok a => Ok a
  | Throw e =>
      Throw (rethrow "Failed to generate embeddings"
                     "BATCH_EMBEDDING_GENERATION_FAILED" e)
  end.

(** [texts.map(sanitizeText).filter((text) => text.trim())]. *)
Definition sanitizedTexts (texts : list string) : list string :=
  filter (fun text => truthy (trim text)) (map sanitizeText texts).

(** The control flow the two versions of the class share.  They differ in
    how a vector is obtained once the text is known to be non-empty:
    [embedOne] stands for that part of generateEmbedding and [embedBatch] for
    that part of generateEmbeddings. *)
Section Methods.

Variable embedOne : string -> result vector.
Variable embedBatch : list string -> result (list vector).

Definition generateEmbedding (text : string) : result vector :=
  let sanitizedText := sanitizeText text in
  catchSingle
    (if negb (truthy (trim sanitizedText)) then Throw emptyText
     else embedOne sanitizedText).

Definition generateEmbeddings (texts : list string) : result (list vector) :=
  catchBatch
    match texts with
    | [] => Ok []
    | [text] =>
        match generateEmbedding text with
        | Ok embedding => Ok [embedding]
        | Throw e => Throw e
        end
    | _ =>
        let sanitized := sanitizedTexts texts in
        if (List.length sanitized =? 0)%nat then Throw noValidTexts
        else embedBatch sanitized
    end.

Definition generateChunkEmbeddings (chunks : list string) : result (list vector) :=
  generateEmbeddings chunks.

End Methods.

(** *** The version that calls the provider through retryWithBackoff *)
Section Provider.

(** [embed value k] and [embedMany values k]: what the provider answers at
    the k-th invocation of one retry loop. *)
Variable embed : string -> nat -> result vector.
Variable embedMany : list string -> nat -> result (list vector).
Variable retries : Z.

Definition providerOne (sanitizedText : string) : result vector :=
  snd (retryWithBackoff_run (embed sanitizedText) retries 1000).

Definition providerBatch (sanitized : list string) : result (list vector) :=
  snd (retryWithBackoff_run (embedMany sanitized) retries 1000).

End Provider.

(** *** The version that generates mock vectors *)
Section Mock.

#[local] Open Scope float_scope.

(** [random k] is the k-th value [Math.random()] returns; [dimensions] is
    [config.dimensions], a valid array length. *)
Variable random : nat -> float.
Variable dimensions : nat.

(** [new Array(dimensions).fill(0).map(() => Math.random() - 0.5)], then
    division by the magnitude; [drawn] values were consumed before. *)
Definition mockVector (drawn : nat) : vector :=
  let mockEmbedding := map (fun i => random (drawn + i)%nat - 0.5) (seq 0 dimensions) in
  let magnitude := sqrt (fold_left (fun sum val => sum + val * val) mockEmbedding 0) in
  map (fun val => val / magnitude) mockEmbedding.

Definition mockOne (drawn : nat) (_ : string) : result vector :=
  Ok (mockVector drawn).

(** [sanitizedTexts.map(() => ...)]: one vector per element, left to right. *)
Fixpoint mockVectors (drawn : nat) (sanitized : list string) : list vector :=
  match sanitized with
  | [] => []
  | _ :: rest => mockVector drawn :: mockVectors (drawn + dimensions)%nat rest
  end.

Definition mockBatch (drawn : nat) (sanitized : list string) : result (list vector) :=
  Ok (mockVectors drawn sanitized).

End Mock.

End EmbeddingService.

Module EmbeddingClaims.
Import JsString Sanitize Retry RetryProps EmbeddingService.

Lemma sanitizedTexts_single (text : string) :
  sanitizedTexts [text]
  = if truthy (trim (sanitizeText text)) then [sanitizeText text] else [].
Proof. reflexivity. Qed.

Lemma mockVectors_length random dimensions : forall sanitized drawn,
  List.length (mockVectors random dimensions drawn sanitized) = List.length sanitized.
Proof.
  induction sanitized as [|s rest IH]; intros drawn; simpl; [reflexivity|].
  now rewrite IH.
Qed.

(** A fixed stream for running the mock version on examples. *)
Definition constant_random (_ : nat) : float := 0.75%float.

(** The scenario of the specification, on the mock version with three
    dimensions: exactly two vectors. *)
Example mock_batch_drops_empty_entry :
  option_map (@List.length vector)
    match generateEmbeddings (mockOne constant_random 3 0)
            (mockBatch constant_random 3 0) ["valid"; ""; "also valid"]%string with
    | Ok vs => Some vs
    | Throw _ => None
    end = Some 2%nat.
Proof. reflexivity. Qed.

(** The version that calls the provider: the values sent are the inputs
    that remain non-empty, in input order; here the provider fails once and
    then answers. *)
Definition echo_provider (values : list string) (k : nat) : result (list vector) :=
  if Nat.eqb k 0 then Throw (ExternalError "ECONNRESET")
  else Ok (map (fun value => [PrimFloat.of_uint63 (Uint63.of_Z (strlen value))]) values).

Example provider_batch_after_one_failure :
  generateEmbeddings (providerOne (fun _ _ => Ok []) 3) (providerBatch echo_provider 3)
    ["valid"; ""; "also valid"; " ! "]%string
  = Ok [[5%float]; [10%float]; [1%float]].
Proof. reflexivity. Qed.

Example provider_batch_exhausts_retries :
  generateEmbeddings (providerOne (fun _ _ => Ok []) 1)
    (providerBatch (fun _ _ => Throw (ExternalError "ECONNRESET")) 1)
    ["valid"; "also valid"]%string
  = Throw (AppError "Failed to generate embeddings" 500
                    "BATCH_EMBEDDING_GENERATION_FAILED"
                    (Some (ExternalError "ECONNRESET"))).
Proof. reflexivity. Qed.

(** A single-element array whose text normalizes to the empty string: the
    single-text path signals EMPTY_TEXT. *)
Example single_blank_text_signals_empty_text :
  sanitizedTexts [" "%string] = []
  /\ generateEmbeddings (mockOne constant_random 3 0)
       (mockBatch constant_random 3 0) [" "%string]
     = Throw (AppError "Text cannot be empty" 400 "EMPTY_TEXT" None).
Proof. split; reflexivity. Qed.

Lemma sanitizedTexts_app (xs ys : list string) :
  sanitizedTexts (xs ++ ys) = (sanitizedTexts xs ++ sanitizedTexts ys)%list.
Proof. unfold sanitizedTexts. now rewrite map_app, filter_app. Qed.

(** The catch of generateEmbeddings passes on what the single-text path
    throws: it is an AppError already. *)
Lemma catchSingle_throws_AppError {A : Type} (r : result A) (e : error) :
  catchSingle r = Throw e -> isAppError e = true.
Proof.
  destruct r as [a|e0]; simpl; [discriminate|]. intros H. injection H as <-.
  unfold rethrow. destruct (isAppError e0) eqn:He; [exact He | reflexivity].
Qed.

Lemma generateEmbeddings_single (embedOne : string -> result vector)
  (embedBatch : list string -> result (list vector)) (text : string) :
  generateEmbeddings embedOne embedBatch [text]
  = match generateEmbedding embedOne text with
    | Ok embedding => Ok [embedding]
    | Throw e => Throw e
    end.
Proof.
  unfold generateEmbeddings, generateEmbedding.
  destruct (negb (truthy (trim (sanitizeText text)))); [reflexivity|].
  destruct (catchSingle (embedOne (sanitizeText text))) as [v|e] eqn:Hc;
    [reflexivity|].
  simpl. unfold rethrow. now rewrite (catchSingle_throws_AppError _ _ Hc).
Qed.

(** What the provider version returns is what the provider answered at one
    of its invocations. *)
Lemma providerBatch_answer (embedMany : list string -> nat -> result (list vector))
  (retries : Z) (values : list string) (vs : list vector) :
  providerBatch embedMany retries values = Ok vs ->
  exists k, Z.of_nat k <= retries /\ embedMany values k = Ok vs.
Proof.
  unfold providerBatch, Retry.retryWithBackoff_run, Retry.retryWithBackoff.
  destruct (Retry.retry_loop _ _ _ _ _ _ _) as [[out r]|] eqn:Hrun; simpl;
    [|discriminate].
  intros ->.
  exact (RetryProps.retry_loop_ok_inv _ _ _ _ _ _ _ _ _ (Z.le_refl 0) Hrun).
Qed.

(** Every array returned has one vector per input that remains non-empty,
    when the backend of the batch answers one vector per value. *)
Lemma generateEmbeddings_count (embedOne : string -> result vector)
  (embedBatch : list string -> result (list vector)) :
  (forall values vs, embedBatch values = Ok vs ->
                     List.length vs = List.length values) ->
  forall texts vs,
    generateEmbeddings embedOne embedBatch texts = Ok vs ->
    List.length vs = List.length (sanitizedTexts texts).
Proof.
  intros Hbatch texts vs H. destruct texts as [|t1 [|t2 rest]].
  - injection H as <-. reflexivity.
  - rewrite generateEmbeddings_single in H. rewrite sanitizedTexts_single.
    unfold generateEmbedding in H.
    destruct (truthy (trim (sanitizeText t1))); simpl in H; [|discriminate H].
    destruct (catchSingle (embedOne (sanitizeText t1))); [|discriminate H].
    now injection H as <-.
  - unfold generateEmbeddings in H.
    destruct (sanitizedTexts (t1 :: t2 :: rest)) as [|s kept] eqn:Hk;
      [discriminate H|].
    simpl in H. destruct (embedBatch (s :: kept)) as [ws|e] eqn:Hb;
      [|discriminate H].
    injection H as <-. exact (Hbatch _ _ Hb).
Qed.


End EmbeddingClaims.

(** ** WeaviateService.searchDocuments *)
Module WeaviateService.
Import JsString JsNumber Retry.

#[local] Set Warnings "-inexact-float".
#[local] Open Scope float_scope.

(** One object of [searchResponse.data.Get["Documents"]]; a missing title or
    content is [None]. *)
Record Item : Type := mkItem {
  item_id : string;
  item_title : option string;
  item_content : option string
}.

(** [None] when [data], [data.Get] or [data.Get["Documents"]] is missing. *)
Definition SearchResponse : Type := option (list Item).

Record SearchQuery : Type := mkSearchQuery {
  query : string;
  limit : Z;
  offset : Z;
  similarity_threshold : float
}.

Record FoundDocument : Type := mkFoundDocument {
  fd_id : string;
  fd_title : string;
  fd_content : string
}.

Record SearchResult : Type := mkSearchResult {
  sr_document : FoundDocument;
  sr_score : float
}.

Definition orEmpty (s : option string) : string :=
  match s with Some v => v | None => EmptyString end.

Definition toDocument (item : Item) : FoundDocument :=
  {| fd_id := item_id item;
     fd_title := orEmpty (item_title item);
     fd_content := orEmpty (item_content item) |}.

(** [titleMatch ? 0.9 : contentMatch ? 0.7 : 0.3]. *)
Definition relevance (q : SearchQuery) (document : FoundDocument) : float :=
  let queryLower := toLowerCase (query q) in
  let titleMatch := includes (toLowerCase (fd_title document)) queryLower in
  let contentMatch := includes (toLowerCase (fd_content document)) queryLower in
  if titleMatch then 0.9 else if contentMatch then 0.7 else 0.3.

(** The [for] loop over the items: a result is pushed when
    [score >= query.similarity_threshold]. *)
Fixpoint collect (q : SearchQuery) (items : list Item) (results : list SearchResult)
  : list SearchResult :=
  match items with
  | [] => results
  | item :: rest =>
      let document := toDocument item in
      let score := relevance q document in
      if geb score (similarity_threshold q)
      then collect q rest (results ++ [{| sr_document := document; sr_score := score |}])
      else collect q rest results
  end.

Definition searchFailed (e : error) : error :=
  AppError "Failed to search documents" 500 "DOCUMENT_SEARCH_FAILED" (Some e).

(** [fetch k]: the answer of the store at the k-th invocation of the GraphQL
    request inside retryWithBackoff. *)
Definition searchDocuments (fetch : nat -> result SearchResponse) (retries : Z)
  (q : SearchQuery) : result (list SearchResult) :=
  match snd (retryWithBackoff_run fetch retries 1000) with
  | Throw e => Throw (searchFailed e)
  | Ok searchResponse =>
      match searchResponse with
      | Some items => Ok (collect q items [])
      | None => Ok []
      end
  end.

End WeaviateService.

Module SearchClaims.
Import JsString JsNumber Retry WeaviateService.

#[local] Set Warnings "-inexact-float".
#[local] Open Scope float_scope.

(** The three fixed scores. *)
Lemma relevance_cases (q : SearchQuery) (document : FoundDocument) :
  let queryLower := toLowerCase (query q) in
  (includes (toLowerCase (fd_title document)) queryLower = true
   /\ relevance q document = 0.9)
  \/ (includes (toLowerCase (fd_title document)) queryLower = false
      /\ includes (toLowerCase (fd_content document)) queryLower = true
      /\ relevance q document = 0.7)
  \/ (includes (toLowerCase (fd_title document)) queryLower = false
      /\ includes (toLowerCase (fd_content document)) queryLower = false
      /\ relevance q document = 0.3).
Proof.
  cbv zeta. unfold relevance.
  destruct (includes (toLowerCase (fd_title document)) (toLowerCase (query q)));
    [left; split; reflexivity|].
  destruct (includes (toLowerCase (fd_content document)) (toLowerCase (query q)));
    [right; left | right; right]; repeat split; reflexivity.
Qed.

(** The loop keeps what was collected and adds only results that pass the
    threshold, each with the score of its own document. *)
Lemma collect_invariant (q : SearchQuery) (P : SearchResult -> Prop) :
  (forall document,
     geb (relevance q document) (similarity_threshold q) = true ->
     P {| sr_document := document; sr_score := relevance q document |}) ->
  forall items results, Forall P results -> Forall P (collect q items results).
Proof.
  intros HP. induction items as [|item rest IH]; intros results Hres; simpl.
  - exact Hres.
  - destruct (geb (relevance q (toDocument item)) (similarity_threshold q)) eqn:Hge.
    + apply IH. apply Forall_app. split; [exact Hres|].
      constructor; [|constructor]. apply HP. exact Hge.
    + apply IH. exact Hres.
Qed.

Lemma collect_above_every_score (q : SearchQuery) :
  (forall document, geb (relevance q document) (similarity_threshold q) = false) ->
  forall items results, collect q items results = results.
Proof.
  intros Hlow. induction items as [|item rest IH]; intros results; simpl.
  - reflexivity.
  - rewrite Hlow. apply IH.
Qed.

Lemma fetch_success_first_attempt {T : Type} (fetch : nat -> result T)
  (retries : Z) (response : T) :
  0 <= retries ->
  fetch 0%nat = Ok response ->
  retryWithBackoff_run fetch retries 1000 = ([Invoke 0], Ok response).
Proof.
  intros Hr H0. unfold retryWithBackoff_run, retryWithBackoff, enough_fuel.
  destruct (Z.to_nat (retries + 1)) as [|fuel] eqn:Hf; [lia|].
  simpl. assert (Hle : (0 <=? retries)%Z = true) by (apply Z.leb_le; lia).
  rewrite Hle. simpl Z.to_nat. rewrite H0. reflexivity.
Qed.

(** A small store for examples. *)
Definition sample_items : list Item :=
  [ mkItem "1" (Some "Chunking Guide"%string) (Some "How windows overlap"%string);
    mkItem "2" (Some "Retry policy"%string) (Some "Backoff and chunking notes"%string);
    mkItem "3" None (Some "Unrelated text"%string) ].

Example search_scores_and_filters :
  option_map (map (fun r => (fd_id (sr_document r), sr_score r)))
    match searchDocuments (fun _ => Ok (Some sample_items)) 3
            (mkSearchQuery "CHUNKING" 10 0 0.5) with
    | Ok results => Some results
    | Throw _ => None
    end
  = Some [("1"%string, 0.9); ("2"%string, 0.7)].
Proof. reflexivity. Qed.

(** C10.  Every result searchDocuments returns has a score at or above the
    query's similarity_threshold, and that score is the lexical score of its
    document: 0.9 when the lower-cased title contains the lower-cased query,
    0.7 when only the content does, 0.3 otherwise.  When the store answers,
    the call returns the filtered list and no error; with
    similarity_threshold = 0.95 that list is empty, whatever the candidates. *)
Theorem searchDocuments_respects_threshold
  (fetch : nat -> result SearchResponse) (retries : Z) (q : SearchQuery) :
  (forall results,
     searchDocuments fetch retries q = Ok results ->
     Forall (fun r => geb (sr_score r) (similarity_threshold q) = true
                      /\ sr_score r = relevance q (sr_document r)) results)
  /\ (forall document,
        let queryLower := toLowerCase (query q) in
        let titleMatch := includes (toLowerCase (fd_title document)) queryLower in
        let contentMatch := includes (toLowerCase (fd_content document)) queryLower in
        relevance q document
        = if titleMatch then 0.9 else if contentMatch then 0.7 else 0.3)
  /\ (forall items,
        0 <= retries ->
        fetch 0%nat = Ok (Some items) ->
        searchDocuments fetch retries q = Ok (collect q items []))
  /\ (forall items text lim off,
        0 <= retries ->
        fetch 0%nat = Ok (Some items) ->
        searchDocuments fetch retries (mkSearchQuery text lim off 0.95) = Ok []).
Proof.
  split.
  { intros results H. unfold searchDocuments in H.
    destruct (snd (retryWithBackoff_run fetch retries 1000)) as [[items|]|e];
      [| injection H as <-; constructor | discriminate H].
    injection H as <-.
    apply collect_invariant; [|constructor].
    intros document Hge. simpl. split; [exact Hge | reflexivity]. }
  split; [reflexivity|]. split.
  { intros items Hr H0. unfold searchDocuments.
    rewrite (fetch_success_first_attempt fetch retries (Some items) Hr H0).
    reflexivity. }
  intros items text lim off Hr H0. unfold searchDocuments.
  rewrite (fetch_success_first_attempt fetch retries (Some items) Hr H0). simpl snd.
  cbv iota. f_equal. apply collect_above_every_score.
  intros document. simpl similarity_threshold.
  destruct (relevance_cases (mkSearchQuery text lim off 0.95) document)
    as [[_ ->]|[[_ [_ ->]]|[_ [_ ->]]]]; reflexivity.
Qed.

End SearchClaims.

(** ** SelfIndexingService *)
Module SelfIndexingService.
Import JsString.

#[local] Open Scope string_scope.

Inductive DevelopmentContext : Type :=
| CODE | DOCUMENTATION | CONFIGURATION | ARCHITECTURE | PERFORMANCE | BUG
| FEATURE | GENERAL.

Definition contextLabel (context : DevelopmentContext) : string :=
  match context with
  | CODE => "code" | DOCUMENTATION => "documentation"
  | CONFIGURATION => "configuration" | ARCHITECTURE => "architecture"
  | PERFORMANCE => "performance" | BUG => "bug" | FEATURE => "feature"
  | GENERAL => "general"
  end.

Inductive DocumentType : Type :=
| T_TXT | T_CODE | T_DOCUMENTATION | T_CONFIGURATION | T_DEVELOPMENT_HISTORY
| T_DEVELOPMENT_STATUS | T_PROJECT_STRUCTURE.

(** The document handed to [documentService.addDocument].  The fields that
    are the same in every document built here (language "en", mime_type
    "text/plain", empty custom_fields and chunks, version 1, status
    "pending") and the two dates are left out. *)
Record IndexedDocument : Type := mkIndexedDocument {
  id : string;
  title : string;
  content : string;
  source : string;
  type : DocumentType;
  tags : list string;
  size : Z;
  filePath : option string
}.

(** Everything a pass does that can be seen from outside, in order. *)
Inductive event : Type :=
| ConsoleLog (msg : string)
| ConsoleWarn (msg : string) (e : error)
| ConsoleError (msg : string) (e : error)
| ReadFile (path : string)
| Readdir (path : string)
| Stat (path : string)
| Exec (command : string)
| AddDocument (document : IndexedDocument).

(** The part of the file system a traversal sees: what [stat] and [readdir]
    answer for an entry.  A traversal starts with [readdir] on its root; on
    a root that is not a [Directory] that call fails. *)
Inductive fsnode : Type :=
| StatFails (e : error)
| IsFile
| IsOther                                  (* neither a file nor a directory *)
| UnreadableDirectory (e : error)          (* a directory whose readdir fails *)
| Directory (items : list (string * fsnode)).

(** [`${error}`]. *)
Definition errorText (e : error) : string :=
  match e with
  | ExternalError msg => "Error: " ++ msg
  | JsError msg => "Error: " ++ msg
  | AppError message _ _ _ => "AppError: " ++ message
  | Undefined => "undefined"
  end.

(** *** Calls that log what they do and may throw *)

Definition M (A : Type) : Type := (list event * result A)%type.

Definition ret {A : Type} (a : A) : M A := ([], Ok a).

Definition bind {A B : Type} (m : M A) (k : A -> M B) : M B :=
  match m with
  | (trace, Ok a) => let (trace', r) := k a in ((trace ++ trace')%list, r)
  | (trace, Throw e) => (trace, Throw e)
  end.

(** An effect with its outcome. *)
Definition call {A : Type} (ev : event) (r : result A) : M A := ([ev], r).

Definition emit (ev : event) : M unit := ([ev], Ok tt).

Definition throw {A : Type} (e : error) : M A := ([], Throw e).

(** [try { m } catch (error) { handler(error) }]. *)
Definition try_catch {A : Type} (m : M A) (handler : error -> M A) : M A :=
  match m with
  | (trace, Ok a) => (trace, Ok a)
  | (trace, Throw e) => let (trace', r) := handler e in ((trace ++ trace')%list, r)
  end.

Notation "x <- m ;; k" := (bind m (fun x => k))
  (at level 61, m at next level, right associativity).
Notation "m ;;; k" := (bind m (fun _ => k))
  (at level 61, right associativity).

(** [for (const x of xs) { body(x) }]. *)
Fixpoint forEach {A : Type} (xs : list A) (body : A -> M unit) : M unit :=
  match xs with
  | [] => ret tt
  | x :: rest => body x ;;; forEach rest body
  end.

Definition when (b : bool) (m : M unit) : M unit := if b then m else ret tt.

(** The private fields of the class. *)
Record service_state : Type := mkState {
  isIndexing : bool;
  indexingInterval : option Z
}.

Definition set_isIndexing (b : bool) (st : service_state) : service_state :=
  {| isIndexing := b; indexingInterval := indexingInterval st |}.

Definition docExtensions : list string := [".md"; ".txt"; ".rst"; ".adoc"].
Definition docPaths : list string :=
  ["docs/"; "README.md"; "CHANGELOG.md"; "CONTRIBUTING.md"].
Definition codeExtensions : list string :=
  [".ts"; ".js"; ".tsx"; ".jsx"; ".json"; ".yaml"; ".yml"].
Definition configFiles : list string :=
  ["package.json"; "tsconfig.json"; "docker-compose.yml"; "Dockerfile"].

(** The three commands; the double quotes inside the first one are left out. *)
Definition gitLog : string :=
  "git log --oneline --since=1 week ago --pretty=format:%h %s".
Definition gitBranch : string := "git branch --show-current".
Definition gitStatus : string := "git status --porcelain".

(** [extensions.includes(ext)]. *)
Definition arrayIncludes (xs : list string) (x : string) : bool :=
  existsb (String.eqb x) xs.

(** [extension.replace(".", "")]: the first "." is removed. *)
Fixpoint removeFirstDot (s : string) : string :=
  match s with
  | EmptyString => EmptyString
  | String c rest => if Ascii.eqb c "."%char then rest else String c (removeFirstDot rest)
  end.

(** The pictographs of generateProjectStructure, U+1F4C1 and U+1F4C4, as
    the bytes F0 9F 93 81 and F0 9F 93 84. *)
Definition isPictograph (c1 c2 c3 c4 : ascii) : bool :=
  (nat_of_ascii c1 =? 240)%nat && (nat_of_ascii c2 =? 159)%nat
  && (nat_of_ascii c3 =? 147)%nat
  && ((nat_of_ascii c4 =? 129)%nat || (nat_of_ascii c4 =? 132)%nat).

(** [s.length], in UTF-16 code units: a pictograph is a surrogate pair and
    counts 2, every other character counts 1. *)
Fixpoint jsLength (s : string) : Z :=
  match s with
  | EmptyString => 0
  | String c1 rest1 =>
      match rest1 with
      | String c2 (String c3 (String c4 rest)) =>
          if isPictograph c1 c2 c3 c4 then 2 + jsLength rest
          else 1 + jsLength rest1
      | _ => 1 + jsLength rest1
      end
  end.

Section Environment.

(** The collaborators of one pass: the file system, the version-control
    tool, the document service handed to the constructor, Node's path
    functions and the clock. *)
Variable readFile : string -> result string.
Variable docsDirectory srcDirectory projectRoot : fsnode.
Variable execAsync : string -> result string.
Variable addDocument : IndexedDocument -> result unit.
Variable join : string -> string -> string.
Variable extname basename : string -> string.
Variable now : string.

Definition documentTypeOf (context : DevelopmentContext) : DocumentType :=
  match context with
  | CODE => T_CODE
  | DOCUMENTATION => T_DOCUMENTATION
  | CONFIGURATION => T_CONFIGURATION
  | _ => T_TXT
  end.

Definition indexFile (path : string) (context : DevelopmentContext) : M unit :=
  try_catch
    (fileContent <- call (ReadFile path) (readFile path) ;;
     let fileName := basename path in
     let extension := extname path in
     let document :=
       {| id := fileName ++ "-" ++ now;
          title := fileName;
          content := fileContent;
          source := path;
          type := documentTypeOf context;
          tags := [contextLabel context; removeFirstDot extension];
          size := jsLength fileContent;
          filePath := Some path |} in
     call (AddDocument document) (addDocument document))
    (fun e => throw (JsError ("Failed to index file " ++ path ++ ": " ++ errorText e))).

(** The loop of getFilesRecursively over the entries of one directory; an
    exception ([stat] failing) leaves the loop and is logged by the [catch]
    of the directory, the files found so far are kept. *)
Fixpoint getFilesRecursively (dirPath : string) (node : fsnode)
  (extensions : list string) {struct node} : list event * list string :=
  match node with
  | Directory items =>
      (fix loop (items : list (string * fsnode)) (trace : list event)
           (files : list string) {struct items} : list event * list string :=
         match items with
         | [] => (trace, files)
         | (item, entry) :: rest =>
             let fullPath := join dirPath item in
             match entry with
             | StatFails e =>
                 ((trace ++ [Stat fullPath;
                             ConsoleWarn ("Failed to read directory " ++ dirPath ++ ":") e])%list,
                  files)
             | Directory _ | UnreadableDirectory _ =>
                 if String.eqb item "node_modules" || String.eqb item ".git"
                 then loop rest (trace ++ [Stat fullPath])%list files
                 else
                   let (subTrace, subFiles) :=
                     getFilesRecursively fullPath entry extensions in
                   loop rest (trace ++ [Stat fullPath] ++ subTrace)%list
                        (files ++ subFiles)%list
             | IsFile =>
                 if arrayIncludes extensions (extname item)
                 then loop rest (trace ++ [Stat fullPath])%list (files ++ [fullPath])%list
                 else loop rest (trace ++ [Stat fullPath])%list files
             | IsOther => loop rest (trace ++ [Stat fullPath])%list files
             end
         end) items [Readdir dirPath] []
  | UnreadableDirectory e | StatFails e =>
      ([Readdir dirPath; ConsoleWarn ("Failed to read directory " ++ dirPath ++ ":") e], [])
  | IsFile | IsOther =>
      ([Readdir dirPath;
        ConsoleWarn ("Failed to read directory " ++ dirPath ++ ":")
                    (ExternalError "ENOTDIR: not a directory")], [])
  end.

Definition newline : string := String (ascii_of_nat 10) EmptyString.

(** [generateProjectStructure(dirPath, prefix)]: the lines pushed so far are
    kept when [stat] throws; the result is [structure.join("\n")]. *)
Fixpoint generateProjectStructure (dirPath prefix : string) (node : fsnode)
  {struct node} : list event * string :=
  match node with
  | Directory items =>
      (fix loop (items : list (string * fsnode)) (trace : list event)
           (structure : list string) {struct items} : list event * string :=
         match items with
         | [] => (trace, String.concat newline structure)
         | (item, entry) :: rest =>
             if String.eqb item "node_modules" || String.eqb item ".git"
                || String.eqb item "dist"
             then loop rest trace structure
             else
               let fullPath := join dirPath item in
               match entry with
               | StatFails e =>
                   ((trace ++ [Stat fullPath;
                               ConsoleWarn ("Failed to generate structure for "
                                            ++ dirPath ++ ":") e])%list,
                    String.concat newline structure)
               | Directory _ | UnreadableDirectory _ =>
                   let (subTrace, subStructure) :=
                     generateProjectStructure fullPath (prefix ++ "  ") entry in
                   loop rest (trace ++ [Stat fullPath] ++ subTrace)%list
                        (structure ++ [(prefix ++ "📁 " ++ item ++ "/")%string; subStructure])%list
               | IsFile | IsOther =>
                   loop rest (trace ++ [Stat fullPath])%list
                        (structure ++ [(prefix ++ "📄 " ++ item)%string])%list
               end
         end) items [Readdir dirPath] []
  | UnreadableDirectory e | StatFails e =>
      ([Readdir dirPath;
        ConsoleWarn ("Failed to generate structure for " ++ dirPath ++ ":") e],
       EmptyString)
  | IsFile | IsOther =>
      ([Readdir dirPath;
        ConsoleWarn ("Failed to generate structure for " ++ dirPath ++ ":")
                    (ExternalError "ENOTDIR: not a directory")],
       EmptyString)
  end.

(** One iteration of the loop of indexDirectory. *)
Definition indexListedFile (context : DevelopmentContext) (file : string) : M unit :=
  try_catch (indexFile file context)
    (fun e => emit (ConsoleWarn ("Failed to index file " ++ file ++ ":") e)).

Definition indexDirectory (dirPath : string) (node : fsnode)
  (extensions : list string) (context : DevelopmentContext) : M unit :=
  try_catch
    (let (trace, files) := getFilesRecursively dirPath node extensions in
     (trace, Ok tt) ;;; forEach files (indexListedFile context))
    (fun e => throw (JsError ("Failed to index directory " ++ dirPath ++ ": "
                              ++ errorText e))).

(** One iteration of the loop over docPaths. *)
Definition indexDocumentationFile (path : string) : M unit :=
  try_catch (indexFile path DOCUMENTATION)
    (fun e => emit (ConsoleWarn ("Failed to index documentation file "
                                 ++ path ++ ":") e)).

Definition indexDocsDirectory : M unit :=
  try_catch (indexDirectory "docs/" docsDirectory docExtensions DOCUMENTATION)
    (fun e => emit (ConsoleWarn "Failed to index docs directory:" e)).

Definition indexDocumentation : M unit :=
  forEach docPaths indexDocumentationFile ;;; indexDocsDirectory.

Definition indexSrcDirectory : M unit :=
  try_catch (indexDirectory "src/" srcDirectory codeExtensions CODE)
    (fun e => emit (ConsoleWarn "Failed to index src directory:" e)).

(** One iteration of the loop over configFiles. *)
Definition indexConfigFile (file : string) : M unit :=
  try_catch (indexFile file CONFIGURATION)
    (fun e => emit (ConsoleWarn ("Failed to index config file "
                                 ++ file ++ ":") e)).

Definition indexCodeFiles : M unit :=
  indexSrcDirectory ;;; forEach configFiles indexConfigFile.

Definition historyDocument (commits : string) : IndexedDocument :=
  {| id := "git-history-" ++ now;
     title := "Recent Development History";
     content := commits;
     source := "git-history";
     type := T_DEVELOPMENT_HISTORY;
     tags := ["git"; "development"; "history"];
     size := jsLength commits;
     filePath := None |}.

Definition statusDocument (branch status : string) : IndexedDocument :=
  {| id := "git-status-" ++ now;
     title := "Git Status - " ++ trim branch;
     content := "Branch: " ++ trim branch ++ newline ++ "Status:" ++ newline ++ status;
     source := "git-status";
     type := T_DEVELOPMENT_STATUS;
     tags := ["git"; "development"; "status"];
     size := jsLength status;
     filePath := None |}.

(** The body of the [try] of indexDevelopmentHistory. *)
Definition developmentHistoryBody : M unit :=
  commits <- call (Exec gitLog) (execAsync gitLog) ;;
  when (truthy (trim commits))
    (call (AddDocument (historyDocument commits))
          (addDocument (historyDocument commits))) ;;;
  branch <- call (Exec gitBranch) (execAsync gitBranch) ;;
  status <- call (Exec gitStatus) (execAsync gitStatus) ;;
  when (truthy (trim status))
    (call (AddDocument (statusDocument branch status))
          (addDocument (statusDocument branch status))).

Definition indexDevelopmentHistory : M unit :=
  try_catch developmentHistoryBody
    (fun e => emit (ConsoleWarn "Failed to index development history:" e)).

Definition structureDocument (structure : string) : IndexedDocument :=
  {| id := "project-structure-" ++ now;
     title := "Project Structure";
     content := structure;
     source := "project-structure";
     type := T_PROJECT_STRUCTURE;
     tags := ["project"; "structure"; "development"];
     size := jsLength structure;
     filePath := None |}.

Definition indexProjectStructure : M unit :=
  try_catch
    (let (trace, structure) := generateProjectStructure "." "" projectRoot in
     (trace, Ok tt) ;;;
     call (AddDocument (structureDocument structure))
          (addDocument (structureDocument structure)))
    (fun e => emit (ConsoleWarn "Failed to index project structure:" e)).

End Environment.

(** *** performIndexing, triggerIndexing, getStatus *)

(** The body of the [try] of performIndexing, for any four sweeps. *)
Definition passBody (documentation code history structure : M unit) : M unit :=
  documentation ;;; code ;;; history ;;; structure ;;;
  emit (ConsoleLog "Indexing process completed successfully").

(** performIndexing with the sweeps as parameters: the guard, the flag, the
    [try], the [catch] that logs and the [finally] that clears the flag. *)
Definition performIndexingWith (documentation code history structure : M unit)
  (st : service_state) : service_state * list event :=
  if isIndexing st then
    (st, [ConsoleLog "Indexing already in progress, skipping..."])
  else
    let running := set_isIndexing true st in
    let (trace, _) :=
      try_catch (passBody documentation code history structure)
        (fun e => emit (ConsoleError "Indexing process failed:" e)) in
    (set_isIndexing false running,
     ConsoleLog "Starting indexing process..." :: trace).

Section Pass.

Variable readFile : string -> result string.
Variable docsDirectory srcDirectory projectRoot : fsnode.
Variable execAsync : string -> result string.
Variable addDocument : IndexedDocument -> result unit.
Variable join : string -> string -> string.
Variable extname basename : string -> string.
Variable now : string.

Definition performIndexing (st : service_state) : service_state * list event :=
  performIndexingWith
    (indexDocumentation readFile docsDirectory addDocument join extname basename now)
    (indexCodeFiles readFile srcDirectory addDocument join extname basename now)
    (indexDevelopmentHistory execAsync addDocument now)
    (indexProjectStructure projectRoot addDocument join now)
    st.

Definition triggerIndexing (st : service_state) : service_state * list event :=
  let (st', trace) := performIndexing st in
  (st', ConsoleLog "Manual indexing triggered" :: trace).

End Pass.

Definition getStatus (st : service_state) : bool := isIndexing st.

End SelfIndexingService.

(** ** The pass at the level of its [await]s

    performIndexing is an async function: the code between two [await]s runs
    without interruption, and other calls of performIndexing (a timer tick, a
    manual trigger) may run while a sweep is awaited.  A call is at one of
    its four [await]s or has returned. *)
Module PassMachine.
Import SelfIndexingService.

Inductive pc : Type :=
| AwaitDocumentation
| AwaitCode
| AwaitHistory
| AwaitStructure
| Returned.

Definition is_running (p : pc) : bool :=
  match p with Returned => false | _ => true end.

Definition running_count (ps : list pc) : nat :=
  List.length (filter is_running ps).

(** From the entry of performIndexing to its first [await]: the guard, then
    [this.isIndexing = true], the log and the call of the first sweep. *)
Definition enter (st : service_state) : service_state * list event * pc :=
  if isIndexing st then
    (st, [ConsoleLog "Indexing already in progress, skipping..."%string], Returned)
  else
    (set_isIndexing true st,
     [ConsoleLog "Starting indexing process..."%string],
     AwaitDocumentation).

(** From one [await] to the next, or through [catch] and [finally] to the
    return.  [settled] is the sweep that was awaited: what it did and how it
    ended. *)
Definition resume (st : service_state) (p : pc) (settled : M unit)
  : service_state * list event * pc :=
  match p, settled with
  | Returned, _ => (st, [], Returned)
  | _, (trace, Throw e) =>
      (set_isIndexing false st,
       trace ++ [ConsoleError "Indexing process failed:"%string e],
       Returned)
  | AwaitDocumentation, (trace, Ok _) => (st, trace, AwaitCode)
  | AwaitCode, (trace, Ok _) => (st, trace, AwaitHistory)
  | AwaitHistory, (trace, Ok _) => (st, trace, AwaitStructure)
  | AwaitStructure, (trace, Ok _) =>
      (set_isIndexing false st,
       trace ++ [ConsoleLog "Indexing process completed successfully"%string],
       Returned)
  end.

(** One call from its entry to its return with no other call in between. *)
Definition run_call (documentation code history structure : M unit)
  (st : service_state) : service_state * list event :=
  let '(st0, t0, p0) := enter st in
  let '(st1, t1, p1) := resume st0 p0 documentation in
  let '(st2, t2, p2) := resume st1 p1 code in
  let '(st3, t3, p3) := resume st2 p2 history in
  let '(st4, t4, _) := resume st3 p3 structure in
  (st4, t0 ++ t1 ++ t2 ++ t3 ++ t4).

(** The service object and the calls of performIndexing made so far. *)
Record system : Type := mkSystem {
  this : service_state;
  calls : list pc
}.

Fixpoint update (i : nat) (p : pc) (ps : list pc) : list pc :=
  match ps, i with
  | [], _ => []
  | _ :: rest, O => p :: rest
  | q :: rest, S j => q :: update j p rest
  end.

(** A new call of performIndexing (triggerIndexing(), a timer tick, or the
    first call made by startAutoIndexing), run to its first [await]. *)
Definition trigger (s : system) : system :=
  {| this := fst (fst (enter (this s)));
     calls := calls s ++ [snd (enter (this s))] |}.

(** The sweep awaited by call [i], which is at [p], settles. *)
Definition settle (s : system) (i : nat) (p : pc) (settled : M unit) : system :=
  {| this := fst (fst (resume (this s) p settled));
     calls := update i (snd (resume (this s) p settled)) (calls s) |}.

(** startAutoIndexing and stopAutoIndexing write the timer handle. *)
Definition setHandle (s : system) (handle : option Z) : system :=
  {| this := {| isIndexing := isIndexing (this s); indexingInterval := handle |};
     calls := calls s |}.

Inductive step : system -> system -> Prop :=
| step_trigger (s : system) : step s (trigger s)
| step_settle (s : system) (i : nat) (p : pc) (settled : M unit) :
    nth_error (calls s) i = Some p ->
    is_running p = true ->
    step s (settle s i p settled)
| step_handle (s : system) (handle : option Z) : step s (setHandle s handle).

(** [private isIndexing = false; private indexingInterval?]. *)
Definition initial : system := {| this := mkState false None; calls := [] |}.

Inductive reachable : system -> Prop :=
| reachable_initial : reachable initial
| reachable_step (s s' : system) : reachable s -> step s s' -> reachable s'.

(** The single-flight invariant. *)
Definition single_flight (s : system) : Prop :=
  running_count (calls s) = if isIndexing (this s) then 1%nat else 0%nat.

(** One call followed from an [await] on, its sweeps settling as [outcomes]
    say. *)
Fixpoint resume_all (st : service_state) (p : pc) (outcomes : list (M unit))
  : service_state * pc :=
  match outcomes with
  | [] => (st, p)
  | settled :: rest =>
      resume_all (fst (fst (resume st p settled))) (snd (resume st p settled)) rest
  end.

End PassMachine.

Module PassMachineProps.
Import SelfIndexingService PassMachine.

Lemma running_count_app ps qs :
  running_count (ps ++ qs) = (running_count ps + running_count qs)%nat.
Proof.
  unfold running_count. rewrite filter_app, length_app. reflexivity.
Qed.

Lemma running_count_update : forall ps i p q,
  nth_error ps i = Some p ->
  (running_count (update i q ps) + (if is_running p then 1 else 0)
   = running_count ps + (if is_running q then 1 else 0))%nat.
Proof.
  unfold running_count.
  induction ps as [|x rest IH]; intros i p q H.
  - destruct i; discriminate H.
  - destruct i as [|j]; simpl in H.
    + injection H as ->. simpl. destruct (is_running p), (is_running q); simpl; lia.
    + specialize (IH j p q H). simpl.
      destruct (is_running x); simpl; lia.
Qed.

Lemma running_count_positive : forall ps i p,
  nth_error ps i = Some p -> is_running p = true -> (1 <= running_count ps)%nat.
Proof.
  unfold running_count.
  induction ps as [|x rest IH]; intros i p H Hr.
  - destruct i; discriminate H.
  - destruct i as [|j]; simpl in H.
    + injection H as ->. simpl. rewrite Hr. simpl. lia.
    + specialize (IH j p H Hr). simpl. destruct (is_running x); simpl; lia.
Qed.

(** A call that was idle at its entry is at its first [await] with the flag
    set; a call that found the flag set has returned and changed nothing. *)
Lemma enter_flag (st : service_state) :
  isIndexing (fst (fst (enter st))) = (isIndexing st || is_running (snd (enter st)))
  /\ is_running (snd (enter st)) = negb (isIndexing st)
  /\ indexingInterval (fst (fst (enter st))) = indexingInterval st.
Proof.
  unfold enter. destruct (isIndexing st) eqn:H; simpl; [rewrite H|]; auto.
Qed.

(** While the call is at an [await] the flag stays as it is; when the call
    returns the flag is cleared. *)
Lemma resume_flag (st : service_state) (p : pc) (settled : M unit) :
  is_running p = true ->
  isIndexing (fst (fst (resume st p settled)))
  = (isIndexing st && is_running (snd (resume st p settled)))
  /\ indexingInterval (fst (fst (resume st p settled))) = indexingInterval st.
Proof.
  intros Hrun.
  destruct p, settled as [trace [[]|e]]; try discriminate Hrun; simpl;
    rewrite ?andb_true_r, ?andb_false_r; auto.
Qed.

Lemma step_preserves_single_flight (s s' : system) :
  single_flight s -> step s s' -> single_flight s'.
Proof.
  unfold single_flight. intros Hinv Hstep.
  destruct Hstep as [s | s i p settled Hnth Hrun | s handle];
    unfold trigger, settle, setHandle; cbn [this calls].
  - rewrite running_count_app. destruct (enter_flag (this s)) as [Hf [Hr _]].
    rewrite Hf, Hr, Hinv. unfold running_count. cbn [filter]. rewrite Hr.
    destruct (isIndexing (this s)); reflexivity.
  - pose proof (running_count_positive _ _ _ Hnth Hrun) as Hpos.
    destruct (resume_flag (this s) p settled Hrun) as [Hf _]. rewrite Hf.
    pose proof (running_count_update (calls s) i p
                  (snd (resume (this s) p settled)) Hnth) as Hupd.
    rewrite Hrun, Hinv in Hupd.
    destruct (isIndexing (this s)); [|lia].
    destruct (is_running (snd (resume (this s) p settled))); simpl in *; lia.
  - exact Hinv.
Qed.

Lemma reachable_single_flight (s : system) : reachable s -> single_flight s.
Proof.
  induction 1 as [|s s' _ IH Hstep].
  - reflexivity.
  - exact (step_preserves_single_flight s s' IH Hstep).
Qed.

(** A call that is past the guard returns within four settlements and
    leaves the flag cleared, however its sweeps settle. *)
Lemma resume_all_returns (st : service_state) (p : pc) (o1 o2 o3 o4 : M unit) :
  is_running p = true ->
  resume_all st p [o1; o2; o3; o4] = (set_isIndexing false st, Returned).
Proof.
  intros Hrun.
  destruct p, o1 as [t1 [[]|e1]], o2 as [t2 [[]|e2]], o3 as [t3 [[]|e3]],
           o4 as [t4 [[]|e4]]; try discriminate Hrun; reflexivity.
Qed.

(** performIndexing, read as one function, is the call that runs from its
    entry to its return with no other call in between. *)
Lemma performIndexingWith_run_call (documentation code history structure : M unit)
  (st : service_state) :
  performIndexingWith documentation code history structure st
  = run_call documentation code history structure st.
Proof.
  unfold performIndexingWith, run_call, enter, passBody.
  destruct (isIndexing st); [reflexivity|].
  destruct documentation as [t1 [[]|e1]], code as [t2 [[]|e2]],
           history as [t3 [[]|e3]], structure as [t4 [[]|e4]];
    simpl; rewrite ?app_nil_r, <- ?app_assoc; reflexivity.
Qed.

End PassMachineProps.

Module SchedulerProps.
Import SelfIndexingService.

#[local] Open Scope string_scope.

(** A computation that returns normally. *)
Definition returns_normally (m : M unit) : Prop := snd m = Ok tt.

Lemma returns_normally_eta (m : M unit) :
  returns_normally m -> m = (fst m, Ok tt).
Proof.
  unfold returns_normally. destruct m as [trace r]. simpl. now intros ->.
Qed.

Lemma try_catch_logged (m : M unit) (warn : error -> event) :
  returns_normally (try_catch m (fun e => emit (warn e)))
  /\ fst (try_catch m (fun e => emit (warn e)))
     = (fst m ++ match snd m with Ok _ => [] | Throw e => [warn e] end)%list.
Proof.
  destruct m as [trace [[]|e]]; simpl; split; try reflexivity.
  now rewrite app_nil_r.
Qed.

Lemma bind_normal (m k : M unit) :
  returns_normally m -> returns_normally k ->
  returns_normally (m ;;; k) /\ fst (m ;;; k) = (fst m ++ fst k)%list.
Proof.
  intros Hm Hk. rewrite (returns_normally_eta m Hm), (returns_normally_eta k Hk).
  simpl. split; reflexivity.
Qed.

Lemma forEach_normal {A : Type} (body : A -> M unit) :
  (forall x, returns_normally (body x)) ->
  forall xs,
    returns_normally (forEach xs body)
    /\ fst (forEach xs body) = flat_map (fun x => fst (body x)) xs.
Proof.
  intros Hbody. induction xs as [|x rest [IHn IHt]]; simpl.
  - split; reflexivity.
  - destruct (bind_normal (body x) (forEach rest body) (Hbody x) IHn) as [Hn Ht].
    split; [exact Hn|]. rewrite Ht, IHt. reflexivity.
Qed.

Section Sweeps.

Variable readFile : string -> result string.
Variable docsDirectory srcDirectory projectRoot : fsnode.
Variable execAsync : string -> result string.
Variable addDocument : IndexedDocument -> result unit.
Variable join : string -> string -> string.
Variable extname basename : string -> string.
Variable now : string.

#[local] Abbreviation indexFile' := (indexFile readFile addDocument extname basename now).
#[local] Abbreviation indexListedFile' := (indexListedFile readFile addDocument extname basename now).
#[local] Abbreviation indexDirectory' := (indexDirectory readFile addDocument join extname basename now).
#[local] Abbreviation getFiles' := (getFilesRecursively join extname).

(** indexFile starts by reading the file. *)
Lemma indexFile_reads_first (path : string) (context : DevelopmentContext) :
  exists rest, fst (indexFile' path context) = ReadFile path :: rest.
Proof.
  unfold indexFile, call. simpl.
  destruct (readFile path) as [fileContent|e]; simpl.
  - destruct (addDocument _) as [[]|e]; simpl; eauto.
  - eauto.
Qed.

Lemma indexListedFile_normal (context : DevelopmentContext) (file : string) :
  returns_normally (indexListedFile' context file).
Proof. apply (try_catch_logged _ (ConsoleWarn _)). Qed.

Lemma indexDirectory_normal dirPath node extensions context :
  returns_normally (indexDirectory' dirPath node extensions context)
  /\ fst (indexDirectory' dirPath node extensions context)
     = (fst (getFiles' dirPath node extensions)
        ++ flat_map (fun file => fst (indexListedFile' context file))
             (snd (getFiles' dirPath node extensions)))%list.
Proof.
  unfold indexDirectory.
  destruct (getFiles' dirPath node extensions) as [trace files]. simpl fst. simpl snd.
  destruct (forEach_normal (indexListedFile' context)
              (indexListedFile_normal context) files) as [Hn Ht].
  rewrite (returns_normally_eta _ Hn), Ht. simpl. split; reflexivity.
Qed.

#[local] Abbreviation indexDocumentation' :=
  (indexDocumentation readFile docsDirectory addDocument join extname basename now).
#[local] Abbreviation indexCodeFiles' :=
  (indexCodeFiles readFile srcDirectory addDocument join extname basename now).
#[local] Abbreviation indexDevelopmentHistory' :=
  (indexDevelopmentHistory execAsync addDocument now).
#[local] Abbreviation indexProjectStructure' :=
  (indexProjectStructure projectRoot addDocument join now).

#[local] Abbreviation indexDocumentationFile' :=
  (indexDocumentationFile readFile addDocument extname basename now).
#[local] Abbreviation indexConfigFile' :=
  (indexConfigFile readFile addDocument extname basename now).
#[local] Abbreviation indexDocsDirectory' :=
  (indexDocsDirectory readFile docsDirectory addDocument join extname basename now).
#[local] Abbreviation indexSrcDirectory' :=
  (indexSrcDirectory readFile srcDirectory addDocument join extname basename now).

Lemma indexDocumentationFile_normal path :
  returns_normally (indexDocumentationFile' path).
Proof. apply (try_catch_logged _ (ConsoleWarn _)). Qed.

Lemma indexConfigFile_normal file :
  returns_normally (indexConfigFile' file).
Proof. apply (try_catch_logged _ (ConsoleWarn _)). Qed.

Lemma indexDocsDirectory_normal : returns_normally indexDocsDirectory'.
Proof. apply (try_catch_logged _ (ConsoleWarn _)). Qed.

Lemma indexSrcDirectory_normal : returns_normally indexSrcDirectory'.
Proof. apply (try_catch_logged _ (ConsoleWarn _)). Qed.

Lemma indexDocumentation_normal :
  returns_normally indexDocumentation'
  /\ fst indexDocumentation'
     = (flat_map (fun path => fst (indexDocumentationFile' path)) docPaths
        ++ fst indexDocsDirectory')%list.
Proof.
  unfold indexDocumentation.
  destruct (forEach_normal indexDocumentationFile'
              indexDocumentationFile_normal docPaths) as [Hn Ht].
  destruct (bind_normal _ _ Hn indexDocsDirectory_normal) as [Hb Hbt].
  split; [exact Hb|]. rewrite Hbt, Ht. reflexivity.
Qed.

Lemma indexCodeFiles_normal :
  returns_normally indexCodeFiles'
  /\ fst indexCodeFiles'
     = (fst indexSrcDirectory'
        ++ flat_map (fun file => fst (indexConfigFile' file)) configFiles)%list.
Proof.
  unfold indexCodeFiles.
  destruct (forEach_normal indexConfigFile'
              indexConfigFile_normal configFiles) as [Hn Ht].
  destruct (bind_normal _ _ indexSrcDirectory_normal Hn) as [Hb Hbt].
  split; [exact Hb|]. rewrite Hbt, Ht. reflexivity.
Qed.

Lemma indexDevelopmentHistory_normal : returns_normally indexDevelopmentHistory'.
Proof. apply (try_catch_logged _ (ConsoleWarn _)). Qed.

Lemma indexProjectStructure_normal : returns_normally indexProjectStructure'.
Proof. apply (try_catch_logged _ (ConsoleWarn _)). Qed.

End Sweeps.

(** A pass over four sweeps that return normally. *)
Lemma performIndexingWith_normal (documentation code history structure : M unit)
  (interval : option Z) :
  returns_normally documentation -> returns_normally code ->
  returns_normally history -> returns_normally structure ->
  performIndexingWith documentation code history structure (mkState false interval)
  = (mkState false interval,
     (ConsoleLog "Starting indexing process..."
      :: fst documentation ++ fst code ++ fst history ++ fst structure
         ++ [ConsoleLog "Indexing process completed successfully"])%list).
Proof.
  intros Hd Hc Hh Hs. unfold performIndexingWith, passBody. simpl isIndexing. cbv iota.
  rewrite (returns_normally_eta _ Hd), (returns_normally_eta _ Hc),
          (returns_normally_eta _ Hh), (returns_normally_eta _ Hs).
  simpl. reflexivity.
Qed.

End SchedulerProps.

Module SchedulerClaims.
Import SelfIndexingService SchedulerProps PassMachine PassMachineProps.

#[local] Open Scope string_scope.

(** C8.  Single flight.  (1) A call of performIndexing or triggerIndexing
    made while isIndexing is true returns the state it was given and runs no
    sweep; it only logs.  (2) A call made while idle sets isIndexing before
    it calls the first sweep: at its first await getStatus reports true; the
    flag stays set at every later await, and it is cleared at the step that
    returns, whether the awaited sweep was fulfilled or rejected.
    (3) performIndexing as one function is that call run from entry to
    return, so a pass started while idle leaves isIndexing false, whatever
    its sweeps do, and does not touch the timer handle.  (4) When timer
    ticks and manual triggers arrive while a sweep is awaited: in every
    reachable state at most one call is between the guard and its return,
    and there is one exactly when getStatus reports true; a call that
    arrives while the flag is set returns at once and leaves the service as
    it is; a call past the guard returns within four settlements of its
    sweeps with the flag cleared. *)
Theorem performIndexing_single_flight :
  (forall (documentation code history structure : M unit) (st : service_state),
     getStatus st = true ->
     performIndexingWith documentation code history structure st
     = (st, [ConsoleLog "Indexing already in progress, skipping..."]))
  /\ (forall readFile docs src root execAsync addDocument join extname basename now st,
        getStatus st = true ->
        triggerIndexing readFile docs src root execAsync addDocument join
          extname basename now st
        = (st, [ConsoleLog "Manual indexing triggered";
                ConsoleLog "Indexing already in progress, skipping..."]))
  /\ (forall st : service_state,
        getStatus st = false ->
        exists running,
          enter st = (running, [ConsoleLog "Starting indexing process..."],
                      AwaitDocumentation)
          /\ getStatus running = true
          /\ indexingInterval running = indexingInterval st)
  /\ (forall (st : service_state) (p : pc) (settled : M unit),
        is_running p = true ->
        getStatus st = true ->
        getStatus (fst (fst (resume st p settled)))
        = is_running (snd (resume st p settled))
        /\ indexingInterval (fst (fst (resume st p settled))) = indexingInterval st)
  /\ (forall (st : service_state) (p : pc) (trace : list event) (e : error),
        is_running p = true ->
        resume st p (trace, Throw e)
        = (set_isIndexing false st,
           (trace ++ [ConsoleError "Indexing process failed:" e])%list, Returned)
        /\ getStatus (set_isIndexing false st) = false)
  /\ (forall (documentation code history structure : M unit) (st : service_state),
        performIndexingWith documentation code history structure st
        = run_call documentation code history structure st)
  /\ (forall (documentation code history structure : M unit) (st : service_state),
        getStatus st = false ->
        fst (performIndexingWith documentation code history structure st) = st)
  /\ (forall s : system,
        reachable s ->
        (running_count (calls s) <= 1)%nat
        /\ (running_count (calls s) = 1%nat <-> getStatus (this s) = true))
  /\ (forall s : system,
        getStatus (this s) = true ->
        trigger s = {| this := this s; calls := calls s ++ [Returned] |})
  /\ (forall (st : service_state) (p : pc) (o1 o2 o3 o4 : M unit),
        is_running p = true ->
        resume_all st p [o1; o2; o3; o4] = (set_isIndexing false st, Returned)).
Proof.
  unfold getStatus. split.
  { intros documentation code history structure st Hbusy.
    unfold performIndexingWith. rewrite Hbusy. reflexivity. }
  split.
  { intros readFile docs src root execAsync addDocument join extname basename now st Hbusy.
    unfold triggerIndexing, performIndexing, performIndexingWith.
    rewrite Hbusy. reflexivity. }
  split.
  { intros st Hidle. exists (set_isIndexing true st).
    unfold enter. rewrite Hidle. repeat split. }
  split.
  { intros st p settled Hrun Hbusy.
    destruct (resume_flag st p settled Hrun) as [Hf Hi]. rewrite Hf, Hbusy.
    split; [reflexivity | exact Hi]. }
  split.
  { intros st p trace e Hrun. destruct p; try discriminate Hrun; split; reflexivity. }
  split; [exact performIndexingWith_run_call|]. split.
  { intros documentation code history structure st Hidle.
    unfold performIndexingWith. rewrite Hidle.
    destruct (try_catch _ _) as [trace r]. destruct st as [flag handle].
    simpl in Hidle. subst flag. reflexivity. }
  split.
  { intros s Hs. pose proof (reachable_single_flight s Hs) as Hinv.
    unfold single_flight in Hinv. rewrite Hinv.
    destruct (isIndexing (this s)); split; try lia; split; congruence. }
  split.
  { intros s Hflag. unfold trigger, enter. rewrite Hflag. reflexivity. }
  intros st p o1 o2 o3 o4 Hrun. now apply resume_all_returns.
Qed.

(** A run in which most reads fail: every sweep is still reached, and the
    pass completes. *)
Definition failing_readFile (path : string) : result string :=
  if String.eqb path "README.md" then Ok "hello"
  else Throw (ExternalError "ENOENT").

Example pass_with_failures_completes :
  let '(st, trace) :=
    performIndexing failing_readFile
      (UnreadableDirectory (ExternalError "ENOENT"))
      (Directory [("a.ts", IsFile); ("bad", StatFails (ExternalError "EACCES"));
                  ("b.ts", IsFile)])
      (Directory [("src", Directory [("a.ts", IsFile)])])
      (fun _ => Throw (ExternalError "git: not found"))
      (fun _ => Throw (AppError "Failed to add document to knowledge base" 500
                                "DOCUMENT_ADDITION_FAILED" None))
      (fun dir item => dir ++ item) (fun _ => ".ts") (fun path => path) "0"
      (mkState false None) in
  isIndexing st = false
  /\ last trace (ConsoleLog "") = ConsoleLog "Indexing process completed successfully"
  /\ In (ReadFile "src/a.ts") trace
  /\ In (ReadFile "Dockerfile") trace
  /\ In (Exec gitLog) trace
  /\ In (Readdir ".") trace.
Proof.
  vm_compute. repeat split; auto 60.
Qed.

End SchedulerClaims.

(** ** Further properties of the code *)
Module Further.
Import Utils DocumentService Retry.

Lemma chunk_loop_terminates (text : string) (chunkSize overlap : Z) :
  0 < chunkSize -> overlap <= 0 ->
  forall fuel st,
    (Z.to_nat (strlen text - cs_start st) <= fuel)%nat ->
    exists extra,
      chunk_loop fuel text chunkSize overlap st = Some (cs_chunks st ++ extra).
Proof.
  intros Hc Ho. induction fuel as [|fuel IH]; intros st Hfuel; simpl.
  - destruct (cs_start st <? strlen text) eqn:Hlt.
    + apply Z.ltb_lt in Hlt. lia.
    + exists []. now rewrite app_nil_r.
  - destruct (cs_start st <? strlen text) eqn:Hlt.
    + apply Z.ltb_lt in Hlt.
      destruct (IH (chunk_step text chunkSize overlap st)) as [extra Hextra].
      { unfold chunk_step. simpl. lia. }
      rewrite Hextra. unfold chunk_step at 1. simpl. rewrite <- app_assoc.
      eexists. reflexivity.
    + exists []. now rewrite app_nil_r.
Qed.

(** X1.  Without a positive overlap chunkText returns: for [chunkSize > 0] and
    [overlap <= 0], [len(content)] iterations suffice and the result is a
    non-empty list of chunks. *)
Theorem chunkText_returns_without_overlap (text : string) (chunkSize overlap : Z)
  (fuel : nat) :
  0 < chunkSize -> overlap <= 0 ->
  (Z.to_nat (strlen text) <= fuel)%nat ->
  exists chunks,
    chunkText fuel text chunkSize overlap = Some chunks /\ chunks <> [].
Proof.
  intros Hc Ho Hfuel. unfold chunkText.
  destruct (strlen text <=? chunkSize) eqn:Hle.
  - eexists. split; [reflexivity | discriminate].
  - apply Z.leb_gt in Hle.
    destruct fuel as [|fuel]; [lia|]. simpl.
    assert (Hlt : (0 <? strlen text) = true) by (apply Z.ltb_lt; lia).
    rewrite Hlt.
    destruct (chunk_loop_terminates text chunkSize overlap Hc Ho fuel
                (chunk_step text chunkSize overlap chunk_init)) as [extra Hextra].
    { unfold chunk_step. simpl. lia. }
    rewrite Hextra. eexists. split; [reflexivity|].
    unfold chunk_step. simpl. discriminate.
Qed.

Lemma chunkText_returns_without_overlap_witness :
  exists chunks, chunkText 8 "abcdefgh" 3 0 = Some chunks /\ chunks <> [].
Proof.
  apply (chunkText_returns_without_overlap "abcdefgh" 3 0 8);
    [lia | lia | vm_compute; lia].
Defined.

(** X2.  The chunk at position [n] of the array built by
    addDocumentWithChunks records [chunk_index = n]: indices are contiguous
    from 0. *)
Theorem chunk_indices_contiguous (textChunks : list string)
  (chunkEmbeddings : list vector) (chunkSize overlap contentLength : Z)
  (n : nat) (c : DocumentChunk) :
  nth_error (makeChunks textChunks chunkEmbeddings chunkSize overlap contentLength) n
  = Some c ->
  chunk_index (dc_metadata c) = Z.of_nat n.
Proof. apply ChunkClaims.makeChunks_indices_contiguous. Qed.

Lemma chunk_indices_contiguous_witness :
  chunk_index
    (dc_metadata (makeChunk ["a"; "b"; "c"]%string [] 10 2 30 "c" 2)) = 2.
Proof.
  apply (chunk_indices_contiguous ["a"; "b"; "c"]%string [] 10 2 30 2%nat).
  reflexivity.
Defined.

(** X3.  retryWithBackoff returns or throws within [maxRetries + 1]
    iterations, whatever the operation does. *)
Theorem retryWithBackoff_returns {T : Type} (fn : nat -> result T)
  (maxRetries baseDelay : Z) (fuel : nat) :
  (enough_fuel maxRetries <= fuel)%nat ->
  exists outcome, retryWithBackoff fuel fn maxRetries baseDelay = Some outcome.
Proof. apply RetryProps.retryWithBackoff_total. Qed.

Lemma retryWithBackoff_returns_witness :
  exists outcome,
    retryWithBackoff 4 (fun k => if Nat.eqb k 2 then Ok k else Throw Undefined) 3 1000
    = Some outcome.
Proof.
  apply (retryWithBackoff_returns
           (fun k => if Nat.eqb k 2 then Ok k else Throw Undefined) 3 1000 4).
  vm_compute. lia.
Defined.

End Further.

(** ** src/utils: calculatePagination *)
Module Pagination.

(** [Math.ceil(a / b)] on integers, [b] not zero. *)
Definition ceilDiv (a b : Z) : Z := - ((- a) / b).

Record PageInfo : Type := mkPageInfo {
  page : Z;
  limit : Z;
  total : Z;
  totalPages : Z;
  hasNext : bool;
  hasPrev : bool
}.

(** Integer arguments with [limit] not zero (a zero limit makes
    [total / limit] infinite or NaN). *)
Definition calculatePagination (total page limit : Z) : PageInfo :=
  let totalPages := ceilDiv total limit in
  let currentPage := Z.max 1 (Z.min page totalPages) in
  {| page := currentPage;
     limit := limit;
     total := total;
     totalPages := totalPages;
     hasNext := currentPage <? totalPages;
     hasPrev := currentPage >? 1 |}.

End Pagination.

Module UtilsFurther.
Import Utils Retry RetryProps Pagination.

Lemma ceilDiv_bounds (a b : Z) :
  0 < b -> b * (ceilDiv a b - 1) < a <= b * ceilDiv a b.
Proof.
  intros Hb. unfold ceilDiv.
  pose proof (Z.div_mod (- a) b ltac:(lia)) as Hdm.
  pose proof (Z.mod_pos_bound (- a) b Hb) as Hmod.
  nia.
Qed.

(** X4.  estimateTokenCount returns the least number of 4-character tokens
    that cover the text: [4 * (n - 1) < len(text) <= 4 * n], so 0 only for
    the empty text. *)
Theorem estimateTokenCount_is_ceiling (text : string) :
  4 * (estimateTokenCount text - 1) < strlen text <= 4 * estimateTokenCount text
  /\ (estimateTokenCount text = 0 <-> text = EmptyString).
Proof.
  unfold estimateTokenCount.
  assert (Hlen : 0 <= strlen text) by (unfold strlen; lia).
  pose proof (Z.div_mod (strlen text + 3) 4 ltac:(lia)) as Hdm.
  pose proof (Z.mod_pos_bound (strlen text + 3) 4 ltac:(lia)) as Hmod.
  split; [lia|]. split.
  - intros H0. destruct text as [|c rest]; [reflexivity|].
    unfold strlen in *. simpl String.length in *. lia.
  - intros ->. reflexivity.
Qed.

(** X5.  calculatePagination, for [limit > 0] and [total >= 0]: totalPages is
    the least number of pages of [limit] items that hold [total] items; the
    reported page is the requested page clamped into [1, totalPages]: a
    requested page in that range is kept, a requested page below 1 gives
    page 1, a requested page above totalPages gives totalPages (page 1 when
    there are no items at all); hasPrev holds exactly when the reported page
    is above 1 and hasNext exactly when it is below totalPages; limit and
    total are passed on. *)
Theorem calculatePagination_clamps (total requested limit : Z) :
  0 < limit -> 0 <= total ->
  let info := calculatePagination total requested limit in
  limit * (totalPages info - 1) < total <= limit * totalPages info
  /\ 1 <= page info
  /\ (0 < total -> page info <= totalPages info)
  /\ (total = 0 -> page info = 1 /\ totalPages info = 0
                   /\ hasNext info = false /\ hasPrev info = false)
  /\ (1 <= requested <= totalPages info -> page info = requested)
  /\ (requested < 1 -> page info = 1)
  /\ (totalPages info < requested -> 0 < total -> page info = totalPages info)
  /\ (hasPrev info = true <-> 1 < page info)
  /\ (hasNext info = true <-> page info < totalPages info)
  /\ Pagination.limit info = limit
  /\ Pagination.total info = total.
Proof.
  intros Hl Ht. cbv zeta. unfold calculatePagination. simpl.
  pose proof (ceilDiv_bounds total limit Hl) as Hc.
  split; [exact Hc|]. split; [lia|]. split; [nia|]. split.
  - intros ->. assert (ceilDiv 0 limit = 0) as -> by nia.
    split; [lia|]. split; [reflexivity|]. split.
    + apply Z.ltb_ge. lia.
    + destruct (Z.max 1 (Z.min requested 0) >? 1) eqn:H; [|reflexivity].
      apply Z.gtb_lt in H. lia.
  - split; [lia|]. split; [lia|]. split; [intros Hhigh Hpos; nia|]. split.
    + rewrite Z.gtb_ltb. apply Z.ltb_lt.
    + split; [apply Z.ltb_lt|]. split; reflexivity.
Qed.

(** 95 items in pages of 10: page 3 is kept, page 0 becomes page 1, page 12
    becomes the last page, 10. *)
Lemma calculatePagination_clamps_witness :
  page (calculatePagination 95 3 10) = 3
  /\ page (calculatePagination 95 0 10) = 1
  /\ page (calculatePagination 95 12 10) = totalPages (calculatePagination 95 12 10)
  /\ 10 * (totalPages (calculatePagination 95 12 10) - 1) < 95
     <= 10 * totalPages (calculatePagination 95 12 10).
Proof.
  destruct (calculatePagination_clamps 95 3 10 ltac:(lia) ltac:(lia))
    as [Hpages [_ [_ [_ [Hkept _]]]]].
  destruct (calculatePagination_clamps 95 0 10 ltac:(lia) ltac:(lia))
    as [_ [_ [_ [_ [_ [Hlow _]]]]]].
  destruct (calculatePagination_clamps 95 12 10 ltac:(lia) ltac:(lia))
    as [Hbounds [_ [_ [_ [_ [_ [Hhigh _]]]]]]].
  split; [apply Hkept; simpl in *; unfold ceilDiv; simpl; lia|].
  split; [apply Hlow; lia|].
  split; [apply Hhigh; [vm_compute; reflexivity | lia]|].
  exact Hbounds.
Defined.

End UtilsFurther.

Module RetryFurther.
Import Retry RetryProps.

Definition zsum (xs : list Z) : Z := fold_right Z.add 0 xs.

Lemma zsum_backoff (baseDelay : Z) : forall (n : nat) (from : Z),
  0 <= from ->
  zsum (map (fun k => baseDelay * 2 ^ k) (zrange from n))
  = baseDelay * (2 ^ (from + Z.of_nat n) - 2 ^ from).
Proof.
  induction n as [|n IH]; intros from Hfrom; simpl.
  - replace (from + 0) with from by lia. lia.
  - rewrite IH by lia.
    replace (from + 1 + Z.of_nat n) with (from + Z.pos (Pos.of_succ_nat n)) by lia.
    rewrite (Z.pow_add_r 2 from 1) by lia. lia.
Qed.

Lemma zrange_snoc : forall (n : nat) (from : Z),
  zrange from n ++ [from + Z.of_nat n] = zrange from (n + 1).
Proof.
  induction n as [|n IH]; intros from.
  - simpl. f_equal. lia.
  - simpl zrange. simpl app. f_equal. rewrite <- IH. do 2 f_equal. lia.
Qed.

(** The loop from [attempt], when the invocations made at [attempt], ...,
    [attempt + n - 1] fail and the one at [attempt + n] succeeds. *)
Lemma retry_loop_first_success {T : Type} (fn : nat -> result T)
  (maxRetries baseDelay : Z) (v : T) :
  forall (n : nat) fuel attempt lastError trace,
    0 <= attempt ->
    attempt + Z.of_nat n <= maxRetries ->
    (forall j, attempt <= j < attempt + Z.of_nat n ->
               exists e, fn (Z.to_nat j) = Throw e) ->
    fn (Z.to_nat (attempt + Z.of_nat n)) = Ok v ->
    (n < fuel)%nat ->
    retry_loop fuel fn maxRetries baseDelay attempt lastError trace
    = Some (trace ++ flat_map (failed_attempt baseDelay) (zrange attempt n)
                  ++ [Invoke (attempt + Z.of_nat n)],
            Ok v).
Proof.
  induction n as [|n IH]; intros fuel attempt lastError trace H0 Hmax Hfail Hok Hfuel.
  - destruct fuel as [|fuel]; [lia|].
    change (Z.of_nat 0) with 0 in *. rewrite Z.add_0_r in *. simpl.
    assert (Hle : (attempt <=? maxRetries) = true) by (apply Z.leb_le; lia).
    rewrite Hle, Hok. reflexivity.
  - destruct fuel as [|fuel]; [lia|]. simpl retry_loop.
    assert (Hle : (attempt <=? maxRetries) = true) by (apply Z.leb_le; lia).
    assert (Hne : (attempt =? maxRetries) = false) by (apply Z.eqb_neq; lia).
    destruct (Hfail attempt ltac:(lia)) as [e He].
    rewrite Hle, He, Hne.
    replace (attempt + Z.of_nat (S n)) with (attempt + 1 + Z.of_nat n) in * by lia.
    rewrite (IH fuel (attempt + 1) (Some e) _); try lia.
    + simpl zrange. simpl flat_map. unfold failed_attempt at 2.
      rewrite <- !app_assoc. reflexivity.
    + intros j Hj. apply Hfail. lia.
    + exact Hok.
Qed.

(** X6.  When the operation fails at its first [k] invocations and succeeds
    at the next one, with [k <= maxRetries], retryWithBackoff returns that
    value after exactly [k + 1] invocations, having waited
    [baseDelay * 2^i] after failure [i]: [baseDelay * (2^k - 1)] in total. *)
Theorem retryWithBackoff_first_success {T : Type} (fn : nat -> result T)
  (maxRetries baseDelay : Z) (k : nat) (v : T) (fuel : nat) :
  Z.of_nat k <= maxRetries ->
  (forall j, (j < k)%nat -> exists e, fn j = Throw e) ->
  fn k = Ok v ->
  (k < fuel)%nat ->
  exists trace,
    retryWithBackoff fuel fn maxRetries baseDelay = Some (trace, Ok v)
    /\ invocations trace = zrange 0 (k + 1)
    /\ delays trace = map (fun i => baseDelay * 2 ^ i) (zrange 0 k)
    /\ zsum (delays trace) = baseDelay * (2 ^ Z.of_nat k - 1).
Proof.
  intros Hk Hfail Hok Hfuel. eexists. split.
  - unfold retryWithBackoff.
    apply (retry_loop_first_success fn maxRetries baseDelay v k fuel 0 None []);
      try lia.
    + intros j Hj. destruct (Hfail (Z.to_nat j) ltac:(lia)) as [e He]. eauto.
    + simpl. rewrite Nat2Z.id. exact Hok.
  - simpl app. split; [|split].
    + rewrite invocations_app, invocations_failed. apply zrange_snoc.
    + rewrite delays_app, delays_failed. simpl. apply app_nil_r.
    + rewrite delays_app, delays_failed. simpl. rewrite app_nil_r.
      rewrite zsum_backoff by lia. rewrite Z.add_0_l, Z.pow_0_r. reflexivity.
Qed.

Lemma retryWithBackoff_first_success_witness :
  exists trace,
    retryWithBackoff 4
      (fun j => if Nat.eqb j 2 then Ok j else Throw (ExternalError "ECONNRESET"))
      3 1000 = Some (trace, Ok 2%nat)
    /\ invocations trace = zrange 0 (2 + 1)
    /\ delays trace = map (fun i => 1000 * 2 ^ i) (zrange 0 2)
    /\ zsum (delays trace) = 1000 * (2 ^ Z.of_nat 2 - 1).
Proof.
  apply (retryWithBackoff_first_success
           (fun j => if Nat.eqb j 2 then Ok j else Throw (ExternalError "ECONNRESET"))
           3 1000 2 2%nat 4).
  - lia.
  - intros j Hj. destruct j as [|[|j]]; [eexists; reflexivity | eexists; reflexivity | lia].
  - reflexivity.
  - lia.
Defined.

(** What the loop adds to the trace from [attempt] on holds at most
    [maxRetries + 1 - attempt] invocations. *)
Lemma retry_loop_invocation_bound {T : Type} (fn : nat -> result T)
  (maxRetries baseDelay : Z) :
  forall fuel attempt lastError trace out r,
    retry_loop fuel fn maxRetries baseDelay attempt lastError trace = Some (out, r) ->
    exists added,
      out = trace ++ added
      /\ (List.length (invocations added) <= Z.to_nat (maxRetries + 1 - attempt))%nat.
Proof.
  induction fuel as [|fuel IH]; intros attempt lastError trace out r H; simpl in H.
  - destruct (attempt <=? maxRetries); [discriminate H|].
    injection H as <- <-. exists []. rewrite app_nil_r. split; [reflexivity|simpl; lia].
  - destruct (attempt <=? maxRetries) eqn:Hle.
    + apply Z.leb_le in Hle.
      destruct (fn (Z.to_nat attempt)) as [v|e].
      * injection H as <- <-. exists [Invoke attempt]. split; [reflexivity|simpl; lia].
      * destruct (attempt =? maxRetries) eqn:Heq.
        -- injection H as <- <-. exists [Invoke attempt].
           split; [reflexivity|simpl; lia].
        -- apply Z.eqb_neq in Heq.
           destruct (IH _ _ _ _ _ H) as [added [-> Hlen]].
           exists ([Invoke attempt; Sleep (baseDelay * 2 ^ attempt)] ++ added).
           split; [now rewrite <- app_assoc|].
           rewrite invocations_app. simpl. lia.
    + injection H as <- <-. exists []. rewrite app_nil_r.
      split; [reflexivity|simpl; lia].
Qed.

(** X7.  retryWithBackoff never invokes the operation more than
    [maxRetries + 1] times, whatever the operation does; with a negative
    [maxRetries] it does not invoke it at all and throws [undefined]. *)
Theorem retryWithBackoff_invocation_bound {T : Type} (fn : nat -> result T)
  (maxRetries baseDelay : Z) (fuel : nat) :
  (forall trace r,
     retryWithBackoff fuel fn maxRetries baseDelay = Some (trace, r) ->
     (List.length (invocations trace) <= Z.to_nat (maxRetries + 1))%nat)
  /\ (maxRetries < 0 ->
      retryWithBackoff fuel fn maxRetries baseDelay = Some ([], Throw Undefined)).
Proof.
  split.
  - intros trace r H. unfold retryWithBackoff in H.
    destruct (retry_loop_invocation_bound fn maxRetries baseDelay _ _ _ _ _ _ H)
      as [added [-> Hlen]].
    simpl. replace (maxRetries + 1 - 0) with (maxRetries + 1) in Hlen by lia.
    exact Hlen.
  - intros Hneg. unfold retryWithBackoff.
    assert (Hgt : (0 <=? maxRetries) = false) by (apply Z.leb_gt; lia).
    destruct fuel; simpl; rewrite Hgt; reflexivity.
Qed.

End RetryFurther.

(** ** sanitizeText and the emptiness check of generateEmbedding *)
Module SanitizeFurther.
Import JsString Sanitize EmbeddingService.

#[local] Open Scope nat_scope.

(** [every P s]: all characters of [s] satisfy [P]. *)
Fixpoint every (P : ascii -> bool) (s : string) : bool :=
  match s with
  | EmptyString => true
  | String c rest => P c && every P rest
  end.

(** A character sanitizeText keeps for its own sake: a word character or one
    of [.,!?-]. *)
Definition is_content (c : ascii) : bool := is_word c || is_basic_punctuation c.

(** The characters a sanitized text may hold. *)
Definition is_allowed (c : ascii) : bool :=
  is_word c || Ascii.eqb c " "%char || is_basic_punctuation c.

Definition is_space_or_visible (c : ascii) : bool :=
  negb (is_whitespace c) || Ascii.eqb c " "%char.

Lemma is_content_not_whitespace (c : ascii) :
  is_content c = true -> is_whitespace c = false.
Proof.
  destruct c as [[] [] [] [] [] [] [] []]; vm_compute; congruence.
Qed.

Lemma every_weaken (P Q : ascii -> bool) :
  (forall c, P c = true -> Q c = true) ->
  forall s, every P s = true -> every Q s = true.
Proof.
  intros HPQ. induction s as [|c rest IH]; simpl; [reflexivity|].
  intros H. apply andb_true_iff in H as [Hc Hrest].
  now rewrite (HPQ c Hc), (IH Hrest).
Qed.

Lemma every_trimStart (P : ascii -> bool) : forall s,
  every P s = true -> every P (trimStart s) = true.
Proof.
  induction s as [|c rest IH]; simpl; [reflexivity|].
  intros H. destruct (is_whitespace c); [|exact H].
  apply andb_true_iff in H as [_ Hrest]. now apply IH.
Qed.

Lemma every_trimEnd (P : ascii -> bool) : forall s,
  every P s = true -> every P (trimEnd s) = true.
Proof.
  induction s as [|c rest IH]; simpl; [reflexivity|].
  intros H. apply andb_true_iff in H as [Hc Hrest]. specialize (IH Hrest).
  destruct (trimEnd rest) as [|d kept].
  - destruct (is_whitespace c); simpl; [reflexivity | now rewrite Hc].
  - simpl in *. now rewrite Hc, IH.
Qed.

Lemma every_collapse : forall s in_run,
  every is_space_or_visible (collapse_whitespace in_run s) = true.
Proof.
  induction s as [|c rest IH]; intros in_run; simpl; [reflexivity|].
  destruct (is_whitespace c) eqn:Hws.
  - destruct in_run; [apply IH|]. simpl. apply IH.
  - simpl. unfold is_space_or_visible at 1. rewrite Hws. simpl. apply IH.
Qed.

Lemma every_remove_special (Q : ascii -> bool) : forall s,
  every Q s = true ->
  every (fun c => Q c && (is_word c || is_whitespace c || is_basic_punctuation c))
        (remove_special s) = true.
Proof.
  induction s as [|c rest IH]; simpl; [reflexivity|].
  intros H. apply andb_true_iff in H as [Hc Hrest]. specialize (IH Hrest).
  destruct (is_word c || is_whitespace c || is_basic_punctuation c) eqn:Hk.
  - simpl. now rewrite Hc, Hk, IH.
  - exact IH.
Qed.

Lemma trimStart_length : forall s, String.length (trimStart s) <= String.length s.
Proof.
  induction s as [|c rest IH]; simpl; [lia|].
  destruct (is_whitespace c); simpl; lia.
Qed.

Lemma trimEnd_length : forall s, String.length (trimEnd s) <= String.length s.
Proof.
  induction s as [|c rest IH]; simpl; [lia|].
  destruct (trimEnd rest); [destruct (is_whitespace c)|]; simpl in *; lia.
Qed.

Lemma collapse_length : forall s in_run,
  String.length (collapse_whitespace in_run s) <= String.length s.
Proof.
  induction s as [|c rest IH]; intros in_run; simpl; [lia|].
  pose proof (IH true) as Ht. pose proof (IH false) as Hf.
  destruct (is_whitespace c); [destruct in_run|]; simpl; lia.
Qed.

Lemma remove_special_length : forall s,
  String.length (remove_special s) <= String.length s.
Proof.
  induction s as [|c rest IH]; simpl; [lia|].
  destruct (is_word c || is_whitespace c || is_basic_punctuation c); simpl; lia.
Qed.

(** trim removes nothing from a string that trim produced. *)
Lemma trimEnd_idempotent : forall s, trimEnd (trimEnd s) = trimEnd s.
Proof.
  induction s as [|c rest IH]; simpl; [reflexivity|].
  destruct (trimEnd rest) as [|d kept] eqn:Hr.
  - destruct (is_whitespace c) eqn:Hws; simpl; [reflexivity | now rewrite Hws].
  - simpl. simpl in IH. rewrite IH. reflexivity.
Qed.

Lemma trimStart_fixed (c : ascii) (rest : string) :
  is_whitespace c = false -> trimStart (String c rest) = String c rest.
Proof. intros H. simpl. now rewrite H. Qed.

Lemma trimStart_shape (s : string) :
  trimStart s = EmptyString
  \/ exists c rest, trimStart s = String c rest /\ is_whitespace c = false.
Proof.
  induction s as [|c rest IH]; simpl; [now left|].
  destruct (is_whitespace c) eqn:Hws; [exact IH|]. right. eauto.
Qed.

Lemma trimEnd_keeps_head (c : ascii) (rest : string) :
  is_whitespace c = false ->
  exists kept, trimEnd (String c rest) = String c kept.
Proof.
  intros Hws. simpl. destruct (trimEnd rest); [rewrite Hws|]; eauto.
Qed.

Lemma trim_idempotent (s : string) : trim (trim s) = trim s.
Proof.
  unfold trim. destruct (trimStart_shape s) as [->|[c [rest [-> Hws]]]].
  - reflexivity.
  - destruct (trimEnd_keeps_head c rest Hws) as [kept Hk]. rewrite Hk.
    rewrite (trimStart_fixed c kept Hws). rewrite <- Hk. apply trimEnd_idempotent.
Qed.

(** [some P s]: a character of [s] satisfies [P]. *)
Fixpoint some (P : ascii -> bool) (s : string) : bool :=
  match s with
  | EmptyString => false
  | String c rest => P c || some P rest
  end.

Lemma some_every (P : ascii -> bool) : forall s,
  some P s = negb (every (fun c => negb (P c)) s).
Proof.
  induction s as [|c rest IH]; simpl; [reflexivity|].
  rewrite IH. now destruct (P c).
Qed.

Lemma some_nonempty (P : ascii -> bool) (s : string) :
  some P s = true -> s <> EmptyString.
Proof. destruct s; [discriminate | discriminate]. Qed.

Section Visible.

(** A class of characters none of which is whitespace. *)
Variable P : ascii -> bool.
Hypothesis P_visible : forall c, P c = true -> is_whitespace c = false.

Lemma some_trimStart : forall s, some P s = true -> some P (trimStart s) = true.
Proof.
  induction s as [|c rest IH]; simpl; [discriminate|].
  intros H. destruct (is_whitespace c) eqn:Hws; [|exact H].
  destruct (P c) eqn:Hp; [rewrite (P_visible c Hp) in Hws; discriminate|].
  now apply IH.
Qed.

Lemma some_trimEnd : forall s, some P s = true -> some P (trimEnd s) = true.
Proof.
  induction s as [|c rest IH]; simpl; [discriminate|].
  intros H. destruct (P c) eqn:Hp.
  - rewrite (P_visible c Hp). destruct (trimEnd rest); simpl; now rewrite Hp.
  - simpl in H. specialize (IH H).
    destruct (trimEnd rest) as [|d kept]; [discriminate IH|].
    simpl. rewrite Hp. exact IH.
Qed.

Lemma some_collapse : forall s in_run,
  some P s = true -> some P (collapse_whitespace in_run s) = true.
Proof.
  induction s as [|c rest IH]; intros in_run; simpl; [discriminate|].
  intros H. destruct (P c) eqn:Hp.
  - rewrite (P_visible c Hp). simpl. now rewrite Hp.
  - simpl in H. destruct (is_whitespace c); [destruct in_run|]; simpl.
    + now apply IH.
    + rewrite (IH true H). apply orb_true_r.
    + rewrite Hp. now apply IH.
Qed.

End Visible.

Lemma some_remove_special : forall s,
  some is_content s = true -> some is_content (remove_special s) = true.
Proof.
  induction s as [|c rest IH]; simpl; [discriminate|].
  intros H. unfold is_content at 1 in H.
  destruct (is_word c) eqn:Hw; simpl in *.
  - unfold is_content at 1. now rewrite Hw.
  - destruct (is_basic_punctuation c) eqn:Hp; simpl in *.
    + rewrite orb_true_r. simpl. unfold is_content at 1. rewrite Hw, Hp. reflexivity.
    + destruct (is_whitespace c); simpl.
      * unfold is_content at 1. rewrite Hw, Hp. simpl. now apply IH.
      * now apply IH.
Qed.

Lemma every_whitespace_trim : forall s,
  every is_whitespace s = true -> trim s = EmptyString.
Proof.
  unfold trim. induction s as [|c rest IH]; simpl; [reflexivity|].
  intros H. apply andb_true_iff in H as [Hc Hrest]. rewrite Hc. now apply IH.
Qed.

Lemma collapse_without_content : forall s in_run,
  every (fun c => negb (is_content c)) s = true ->
  every (fun c => is_whitespace c || negb (is_content c))
        (collapse_whitespace in_run s) = true.
Proof.
  induction s as [|c rest IH]; intros in_run; simpl; [reflexivity|].
  intros H. apply andb_true_iff in H as [Hc Hrest].
  destruct (is_whitespace c) eqn:Hws.
  - destruct in_run; [now apply IH|]. simpl. now apply IH.
  - simpl. rewrite Hws, Hc. simpl. now apply IH.
Qed.

(** sanitizeText yields the empty string exactly for texts without a word
    or punctuation character. *)
Lemma sanitizeText_empty_iff (text : string) :
  sanitizeText text = EmptyString <-> some is_content text = false.
Proof.
  split.
  - intros Hempty. destruct (some is_content text) eqn:Hs; [|reflexivity].
    exfalso. unfold sanitizeText, trim in Hempty.
    pose proof (some_collapse is_content is_content_not_whitespace text false Hs) as H1.
    pose proof (some_remove_special _ H1) as H2.
    pose proof (some_trimStart is_content is_content_not_whitespace _ H2) as H3.
    pose proof (some_trimEnd is_content is_content_not_whitespace _ H3) as H4.
    rewrite Hempty in H4. discriminate H4.
  - intros Hs. rewrite some_every in Hs. apply negb_false_iff in Hs.
    unfold sanitizeText. apply every_whitespace_trim.
    pose proof (collapse_without_content text false Hs) as H1.
    pose proof (every_remove_special _ _ H1) as H2.
    revert H2. apply every_weaken. intros c Hc.
    apply andb_true_iff in Hc as [Hq Hk]. unfold is_content in Hq.
    destruct (is_whitespace c); [reflexivity|].
    destruct (is_word c), (is_basic_punctuation c); simpl in *; congruence.
Qed.

(** X8.  For every text, sanitizeText returns a string made only of word
    characters, single-space characters and the punctuation [.,!?-]; it is
    already trimmed (a further trim changes nothing, so it neither starts nor
    ends with whitespace); it is never longer than the text; and it is empty
    exactly when the text holds no word or punctuation character. *)
Theorem sanitizeText_output (text : string) :
  every is_allowed (sanitizeText text) = true
  /\ trim (sanitizeText text) = sanitizeText text
  /\ String.length (sanitizeText text) <= String.length text
  /\ (sanitizeText text = EmptyString <-> some is_content text = false).
Proof.
  split; [|split; [|split]].
  - unfold sanitizeText, trim. apply every_trimEnd, every_trimStart.
    pose proof (every_remove_special _ _ (every_collapse text false)) as H.
    revert H. apply every_weaken. intros c Hc.
    apply andb_true_iff in Hc as [Hq Hk]. unfold is_space_or_visible in Hq.
    unfold is_allowed.
    destruct (is_word c); [reflexivity|].
    destruct (is_basic_punctuation c); [apply orb_true_r|].
    destruct (is_whitespace c); simpl in *; [now rewrite Hq | discriminate].
  - unfold sanitizeText. apply trim_idempotent.
  - unfold sanitizeText, trim.
    pose proof (trimEnd_length (trimStart (remove_special (collapse_whitespace false text)))).
    pose proof (trimStart_length (remove_special (collapse_whitespace false text))).
    pose proof (remove_special_length (collapse_whitespace false text)).
    pose proof (collapse_length text false). lia.
  - apply sanitizeText_empty_iff.
Qed.

Lemma generateEmbedding_rejects_blank (embedOne : string -> result vector)
  (text : string) :
  some is_content text = false ->
  generateEmbedding embedOne text = Throw emptyText.
Proof.
  intros Hs. unfold generateEmbedding.
  apply (sanitizeText_empty_iff text) in Hs. rewrite Hs. reflexivity.
Qed.

(** X9.  generateEmbedding rejects a text with EMPTY_TEXT, without
    consulting the provider, exactly when the text holds no word or
    punctuation character (empty, whitespace only, symbols only); every other
    text reaches the provider in its sanitized form, which is not empty. *)
Theorem generateEmbedding_empty_check (embedOne : string -> result vector)
  (text : string) :
  (some is_content text = false ->
   generateEmbedding embedOne text = Throw emptyText)
  /\ (some is_content text = true ->
      sanitizeText text <> EmptyString
      /\ generateEmbedding embedOne text = catchSingle (embedOne (sanitizeText text))).
Proof.
  unfold generateEmbedding.
  assert (Htrim : trim (sanitizeText text) = sanitizeText text)
    by (unfold sanitizeText; apply trim_idempotent).
  pose proof (sanitizeText_empty_iff text) as Hempty.
  rewrite Htrim. split.
  - intros Hs. apply Hempty in Hs. rewrite Hs. reflexivity.
  - intros Hs. assert (Hne : sanitizeText text <> EmptyString).
    { intros He. apply Hempty in He. congruence. }
    split; [exact Hne|].
    destruct (sanitizeText text); [congruence | reflexivity].
Qed.

Example generateEmbedding_rejects_symbols_only :
  generateEmbedding (fun _ => Ok []) " @#$ %^ " = Throw emptyText.
Proof. reflexivity. Qed.

End SanitizeFurther.

(** ** EmbeddingService: validateEmbeddingDimensions, testConnection *)
Module EmbeddingMore.
Import JsString Sanitize Retry EmbeddingService.

(** [validateEmbeddingDimensions(embedding)]; [None] is [null] or
    [undefined]. *)
Definition validateEmbeddingDimensions (dimensions : nat)
  (embedding : option vector) : bool :=
  match embedding with
  | None => false
  | Some v => Nat.eqb (List.length v) dimensions
  end.

(** [testConnection()]: [generateEmbedding("test")] in a [try]; the [catch]
    logs and answers [false]. *)
Definition testConnection (embedOne : string -> result vector) : bool :=
  match generateEmbedding embedOne "test" with
  | Ok _ => true
  | Throw _ => false
  end.

End EmbeddingMore.

Module EmbeddingFurther.
Import JsString Sanitize Retry RetryProps EmbeddingService EmbeddingMore.

Lemma mockVector_length random dimensions drawn :
  List.length (mockVector random dimensions drawn) = dimensions.
Proof.
  unfold mockVector. rewrite !length_map. apply length_seq.
Qed.

Lemma mockVectors_dimensions random dimensions : forall sanitized drawn,
  Forall (fun v => validateEmbeddingDimensions dimensions (Some v) = true)
         (mockVectors random dimensions drawn sanitized).
Proof.
  induction sanitized as [|s rest IH]; intros drawn; simpl; constructor.
  - simpl. rewrite mockVector_length. apply Nat.eqb_refl.
  - apply IH.
Qed.

(** X10.  In the version that generates mock vectors, every vector that
    generateEmbedding or generateEmbeddings returns has exactly
    [config.dimensions] entries, so validateEmbeddingDimensions accepts it;
    validateEmbeddingDimensions rejects null and undefined. *)
Theorem mock_embeddings_have_configured_dimensions
  (random : nat -> float) (dimensions drawn : nat) :
  (forall text v,
     generateEmbedding (mockOne random dimensions drawn) text = Ok v ->
     validateEmbeddingDimensions dimensions (Some v) = true)
  /\ (forall texts vs,
        generateEmbeddings (mockOne random dimensions drawn)
          (mockBatch random dimensions drawn) texts = Ok vs ->
        Forall (fun v => validateEmbeddingDimensions dimensions (Some v) = true) vs)
  /\ validateEmbeddingDimensions dimensions None = false.
Proof.
  assert (Hone : forall text v,
            generateEmbedding (mockOne random dimensions drawn) text = Ok v ->
            validateEmbeddingDimensions dimensions (Some v) = true).
  { intros text v H. unfold generateEmbedding in H.
    destruct (negb (truthy (trim (sanitizeText text)))); [discriminate H|].
    simpl in H. injection H as <-. simpl. rewrite mockVector_length.
    apply Nat.eqb_refl. }
  split; [exact Hone|]. split; [|reflexivity].
  intros texts vs H. destruct texts as [|t1 [|t2 rest]].
  - injection H as <-. constructor.
  - unfold generateEmbeddings in H.
    destruct (generateEmbedding (mockOne random dimensions drawn) t1) as [v|e] eqn:Hg;
      [|discriminate H].
    simpl in H. injection H as <-. constructor; [|constructor]. exact (Hone t1 v Hg).
  - unfold generateEmbeddings in H.
    destruct (List.length (sanitizedTexts (t1 :: t2 :: rest)) =? 0)%nat;
      [discriminate H|].
    simpl in H. injection H as <-. apply mockVectors_dimensions.
Qed.

Lemma rethrow_isAppError (message code : string) (e : error) :
  isAppError (rethrow message code e) = true.
Proof. unfold rethrow. destruct (isAppError e) eqn:He; [exact He | reflexivity]. Qed.


(** An [Ok] outcome of the loop is the outcome of one of its invocations. *)
(** Among the invocations up to a successful one there is a first
    successful one. *)
Lemma first_success {T : Type} (fn : nat -> result T) : forall k v,
  fn k = Ok v ->
  exists k' v',
    (k' <= k)%nat /\ fn k' = Ok v'
    /\ forall j, (j < k')%nat -> exists e, fn j = Throw e.
Proof.
  induction k as [k IH] using lt_wf_ind. intros v Hk.
  assert (Hdec : (forall j, (j < k)%nat -> exists e, fn j = Throw e)
                 \/ exists j w, (j < k)%nat /\ fn j = Ok w).
  { clear IH Hk. induction k as [|k IHk].
    - left. intros j Hj. lia.
    - destruct IHk as [Hall|[j [w [Hj Hw]]]].
      + destruct (fn k) as [w|e] eqn:Hfk.
        * right. exists k, w. split; [lia | exact Hfk].
        * left. intros j Hj. destruct (Nat.eq_dec j k) as [->|Hne]; [eauto|].
          apply Hall. lia.
      + right. exists j, w. split; [lia | exact Hw]. }
  destruct Hdec as [Hall|[j [w [Hj Hw]]]].
  - exists k, v. split; [lia|]. split; assumption.
  - destruct (IH j Hj w Hw) as [k' [v' [Hle [Hok Hfail]]]].
    exists k', v'. split; [lia|]. split; assumption.
Qed.

(** X12.  testConnection never throws.  In the version that calls the
    provider it answers [true] exactly when one of the first
    [retries + 1] invocations of the provider on the text "test" succeeds;
    in particular it answers [false] when [retries] is negative. *)
Theorem testConnection_provider (embed : string -> nat -> result vector)
  (retries : Z) :
  testConnection (providerOne embed retries) = true
  <-> exists k v, Z.of_nat k <= retries /\ embed "test"%string k = Ok v.
Proof.
  unfold testConnection, generateEmbedding.
  change (sanitizeText "test"%string) with "test"%string.
  change (negb (truthy (trim "test"%string))) with false. cbv iota.
  unfold providerOne, retryWithBackoff_run.
  destruct (RetryProps.retryWithBackoff_total (embed "test"%string) retries 1000
              (enough_fuel retries) (Nat.le_refl _)) as [[trace r] Hrun].
  rewrite Hrun. simpl snd. split.
  - intros H. destruct r as [v|e]; [|discriminate H].
    destruct (retry_loop_ok_inv _ _ _ _ _ _ _ _ _ (Z.le_refl 0) Hrun) as [k [Hk Hok]].
    eauto.
  - intros [k [v [Hk Hok]]].
    destruct (first_success _ k v Hok) as [k' [v' [Hle [Hok' Hfail]]]].
    assert (Hfuel : (k' < enough_fuel retries)%nat) by (unfold enough_fuel; lia).
    unfold retryWithBackoff in Hrun.
    rewrite (RetryFurther.retry_loop_first_success (embed "test"%string) retries 1000 v'
               k' (enough_fuel retries) 0 None []) in Hrun; try lia.
    + injection Hrun as _ <-. reflexivity.
    + intros j Hj. apply Hfail. lia.
    + simpl. rewrite Nat2Z.id. exact Hok'.
Qed.

End EmbeddingFurther.

(** ** DocumentService: addDocument, updateDocument, deleteDocument,
    getDocument, searchDocuments *)
Module DocumentOps.
Import JsString.

Definition vector : Type := list float.

Inductive DocumentStatus : Type := PENDING | PROCESSING | COMPLETED | FAILED | ARCHIVED.

Section Service.

(** The metadata object is carried around and never inspected. *)
Variable Metadata : Type.

Record Document : Type := mkDocument {
  id : string;
  title : string;
  content : string;
  metadata : Metadata;
  chunks : list string;
  embedding : option vector;
  created_at : Z;
  updated_at : Z;
  version : Z;
  status : DocumentStatus
}.

Record CreateDocumentRequest : Type := mkCreate {
  new_title : string;
  new_content : string;
  new_metadata : Metadata
}.

(** The fields of an UpdateDocumentRequest that updateDocument reads; [None]
    is an absent field. *)
Record UpdateDocumentRequest : Type := mkUpdateRequest {
  upd_title : option string;
  upd_content : option string;
  upd_metadata : option Metadata
}.

(** The [Partial<Document>] handed to the store. *)
Record UpdateData : Type := mkUpdateData {
  ud_updated_at : Z;
  ud_title : option string;
  ud_content : option string;
  ud_embedding : option vector;
  ud_metadata : option Metadata
}.

(** The calls made on the vector store, in order. *)
Inductive store_call : Type :=
| StoreAdd (document : Document)
| StoreGet (documentId : string)
| StoreUpdate (documentId : string) (data : UpdateData)
| StoreDelete (documentId : string)
| StoreSearch (queryText : string).

Definition M (A : Type) : Type := (list store_call * result A)%type.

(** The two services handed to the constructor, [generateId] and the
    clock. *)
Variable generateEmbedding : string -> result vector.
Variable weaviate_addDocument : Document -> result unit.
Variable weaviate_getDocument : string -> result (option Document).
Variable weaviate_updateDocument : string -> UpdateData -> result unit.
Variable weaviate_deleteDocument : string -> result unit.
Variable generateId : string.
Variable now : Z.

Definition failed (message code : string) (e : error) : error :=
  AppError message 500 code (Some e).

Definition additionFailed : error -> error :=
  failed "Failed to add document to knowledge base" "DOCUMENT_ADDITION_FAILED".

Definition notFound : error := AppError "Document not found" 404 "DOCUMENT_NOT_FOUND" None.

Definition withStatus (st : DocumentStatus) (d : Document) : Document :=
  {| id := id d; title := title d; content := content d; metadata := metadata d;
     chunks := chunks d; embedding := embedding d; created_at := created_at d;
     updated_at := updated_at d; version := version d; status := st |}.

Definition addDocument (request : CreateDocumentRequest) : M Document :=
  match generateEmbedding (new_content request) with
  | Throw e => ([], Throw (additionFailed e))
  | Ok vec =>
      let document :=
        {| id := generateId;
           title := new_title request;
           content := new_content request;
           metadata := new_metadata request;
           chunks := [];
           embedding := Some vec;
           created_at := now;
           updated_at := now;
           version := 1;
           status := PROCESSING |} in
      match weaviate_addDocument document with
      | Throw e => ([StoreAdd document], Throw (additionFailed e))
      | Ok _ => ([StoreAdd document], Ok (withStatus COMPLETED document))
      end
  end.

(** A string field of the request counts when it is present and not empty. *)
Definition given (field : option string) : option string :=
  match field with
  | Some s => if truthy s then Some s else None
  | None => None
  end.

Definition orElse {A : Type} (o : option A) (d : A) : A :=
  match o with Some a => a | None => d end.

(** [{ ...existingDocument, ...updateData }]. *)
Definition merge (existing : Document) (data : UpdateData) : Document :=
  {| id := id existing;
     title := orElse (ud_title data) (title existing);
     content := orElse (ud_content data) (content existing);
     metadata := orElse (ud_metadata data) (metadata existing);
     chunks := chunks existing;
     embedding := match ud_embedding data with
                  | Some vec => Some vec
                  | None => embedding existing
                  end;
     created_at := created_at existing;
     updated_at := ud_updated_at data;
     version := version existing;
     status := status existing |}.

(** The [catch] of updateDocument: an AppError is rethrown as it is. *)
Definition updateCatch (e : error) : error :=
  if isAppError e then e
  else failed "Failed to update document" "DOCUMENT_UPDATE_FAILED" e.

Definition updateDocument (documentId : string) (updates : UpdateDocumentRequest)
  : M Document :=
  match weaviate_getDocument documentId with
  | Throw e => ([StoreGet documentId], Throw (updateCatch e))
  | Ok None => ([StoreGet documentId], Throw notFound)
  | Ok (Some existingDocument) =>
      let newEmbedding :=
        match given (upd_content updates) with
        | Some text =>
            match generateEmbedding text with
            | Ok vec => Ok (Some vec)
            | Throw e => Throw e
            end
        | None => Ok None
        end in
      match newEmbedding with
      | Throw e => ([StoreGet documentId], Throw (updateCatch e))
      | Ok vec =>
          let updateData :=
            {| ud_updated_at := now;
               ud_title := given (upd_title updates);
               ud_content := given (upd_content updates);
               ud_embedding := vec;
               ud_metadata := upd_metadata updates |} in
          match weaviate_updateDocument documentId updateData with
          | Throw e =>
              ([StoreGet documentId; StoreUpdate documentId updateData],
               Throw (updateCatch e))
          | Ok _ =>
              ([StoreGet documentId; StoreUpdate documentId updateData],
               Ok (merge existingDocument updateData))
          end
      end
  end.

Definition deleteDocument (documentId : string) : M unit :=
  match weaviate_deleteDocument documentId with
  | Throw e =>
      ([StoreDelete documentId],
       Throw (failed "Failed to delete document" "DOCUMENT_DELETION_FAILED" e))
  | Ok _ => ([StoreDelete documentId], Ok tt)
  end.

Definition getDocument (documentId : string) : M (option Document) :=
  match weaviate_getDocument documentId with
  | Throw e =>
      ([StoreGet documentId],
       Throw (failed "Failed to get document" "DOCUMENT_RETRIEVAL_FAILED" e))
  | Ok found => ([StoreGet documentId], Ok found)
  end.

(** [searchDocuments(query)]: the query text is embedded first, then the
    store is searched. *)
Definition searchDocuments {Q R : Type} (queryText : Q -> string)
  (weaviate_searchDocuments : Q -> result R) (q : Q) : M R :=
  match generateEmbedding (queryText q) with
  | Throw e => ([], Throw (failed "Failed to search documents" "DOCUMENT_SEARCH_FAILED" e))
  | Ok _ =>
      match weaviate_searchDocuments q with
      | Throw e =>
          ([StoreSearch (queryText q)],
           Throw (failed "Failed to search documents" "DOCUMENT_SEARCH_FAILED" e))
      | Ok results => ([StoreSearch (queryText q)], Ok results)
      end
  end.

End Service.

End DocumentOps.

Module DocumentOpsProps.
Import JsString Sanitize DocumentOps.

Section Props.

Variable Metadata : Type.
Variable generateEmbedding : string -> result vector.
Variable weaviate_addDocument : Document Metadata -> result unit.
Variable weaviate_getDocument : string -> result (option (Document Metadata)).
Variable weaviate_updateDocument : string -> UpdateData Metadata -> result unit.
Variable generateId : string.
Variable now : Z.

#[local] Abbreviation addDocument' :=
  (addDocument Metadata generateEmbedding weaviate_addDocument generateId now).
#[local] Abbreviation updateDocument' :=
  (updateDocument Metadata generateEmbedding weaviate_getDocument
     weaviate_updateDocument now).

(** X13.  addDocument is all or nothing.  The store is written at most
    once, and only after the embedding of the content was obtained: when the
    embedding fails no store call is made.  A successful call returns the
    request's title and content with the embedding, version 1, no chunks and
    status COMPLETED, after handing the same document with status PROCESSING
    to the store.  Every failure, whatever its cause, reaches the caller as
    the AppError DOCUMENT_ADDITION_FAILED with status 500 and the cause
    attached. *)
Theorem addDocument_all_or_nothing (request : CreateDocumentRequest Metadata) :
  (forall e,
     generateEmbedding (new_content Metadata request) = Throw e ->
     addDocument' request = ([], Throw (additionFailed e)))
  /\ (forall calls document,
        addDocument' request = (calls, Ok document) ->
        (exists vec,
           generateEmbedding (new_content Metadata request) = Ok vec
           /\ embedding Metadata document = Some vec)
        /\ calls = [StoreAdd Metadata (withStatus Metadata PROCESSING document)]
        /\ weaviate_addDocument (withStatus Metadata PROCESSING document) = Ok tt
        /\ title Metadata document = new_title Metadata request
        /\ content Metadata document = new_content Metadata request
        /\ chunks Metadata document = []
        /\ version Metadata document = 1
        /\ status Metadata document = COMPLETED)
  /\ (forall calls e,
        addDocument' request = (calls, Throw e) ->
        (List.length calls <= 1)%nat
        /\ exists cause,
             e = AppError "Failed to add document to knowledge base" 500
                          "DOCUMENT_ADDITION_FAILED" (Some cause)).
Proof.
  unfold addDocument. split; [|split].
  - intros e He. rewrite He. reflexivity.
  - intros calls document H.
    destruct (generateEmbedding (new_content Metadata request)) as [vec|e];
      [|discriminate H].
    destruct (weaviate_addDocument _) as [[]|e] eqn:Hstore; [|discriminate H].
    injection H as <- <-. simpl.
    split; [eauto|]. split; [reflexivity|]. split; [exact Hstore|].
    repeat split.
  - intros calls e H.
    destruct (generateEmbedding (new_content Metadata request)) as [vec|e0].
    + destruct (weaviate_addDocument _) as [[]|e1]; [discriminate H|].
      injection H as <- <-. simpl. split; [lia | eexists; reflexivity].
    + injection H as <- <-. simpl. split; [lia | eexists; reflexivity].
Qed.


End Props.

(** X15.  With the EmbeddingService in place, addDocument and
    searchDocuments reject a content or query without any word or
    punctuation character (empty, blank, symbols only) before the store and
    the provider are touched: the failure is DOCUMENT_ADDITION_FAILED,
    respectively DOCUMENT_SEARCH_FAILED, with the EMPTY_TEXT error as its
    cause.  updateDocument passes the EMPTY_TEXT error on as it is and does
    not write. *)
Theorem blank_text_never_reaches_store (Metadata : Type)
  (embedOne : string -> result vector)
  (weaviate_addDocument : Document Metadata -> result unit)
  (weaviate_getDocument : string -> result (option (Document Metadata)))
  (weaviate_updateDocument : string -> UpdateData Metadata -> result unit)
  (weaviate_search : WeaviateService.SearchQuery
                     -> result (list WeaviateService.SearchResult))
  (generateId : string) (now : Z) (text : string) :
  SanitizeFurther.some SanitizeFurther.is_content text = false ->
  (forall documentTitle meta,
     addDocument Metadata (EmbeddingService.generateEmbedding embedOne)
       weaviate_addDocument generateId now (mkCreate Metadata documentTitle text meta)
     = ([], Throw (AppError "Failed to add document to knowledge base" 500
                            "DOCUMENT_ADDITION_FAILED"
                            (Some EmbeddingService.emptyText))))
  /\ (forall lim off threshold,
        searchDocuments Metadata (EmbeddingService.generateEmbedding embedOne)
          WeaviateService.query weaviate_search
          (WeaviateService.mkSearchQuery text lim off threshold)
        = ([], Throw (AppError "Failed to search documents" 500
                               "DOCUMENT_SEARCH_FAILED"
                               (Some EmbeddingService.emptyText))))
  /\ (forall documentId existing newTitle meta,
        text <> EmptyString ->
        weaviate_getDocument documentId = Ok (Some existing) ->
        updateDocument Metadata (EmbeddingService.generateEmbedding embedOne)
          weaviate_getDocument weaviate_updateDocument now documentId
          (mkUpdateRequest Metadata newTitle (Some text) meta)
        = ([StoreGet Metadata documentId], Throw EmbeddingService.emptyText)).
Proof.
  intros Hblank.
  pose proof (SanitizeFurther.generateEmbedding_rejects_blank embedOne text Hblank)
    as Hempty.
  split; [|split].
  - intros documentTitle meta. unfold addDocument. simpl new_content.
    rewrite Hempty. reflexivity.
  - intros lim off threshold. unfold searchDocuments. simpl WeaviateService.query.
    rewrite Hempty. reflexivity.
  - intros documentId existing newTitle meta Hne Hget. unfold updateDocument.
    rewrite Hget. simpl upd_content. unfold given.
    destruct text as [|c rest]; [congruence|]. simpl truthy. cbv iota.
    rewrite Hempty. reflexivity.
Qed.

Lemma blank_text_never_reaches_store_witness :
  addDocument unit (EmbeddingService.generateEmbedding (fun _ => Ok []))
    (fun _ => Ok tt) "id-1" 0 (mkCreate unit "t" "   " tt)
  = ([], Throw (AppError "Failed to add document to knowledge base" 500
                         "DOCUMENT_ADDITION_FAILED"
                         (Some EmbeddingService.emptyText))).
Proof.
  apply (blank_text_never_reaches_store unit (fun _ => Ok []) (fun _ => Ok tt)
           (fun _ => Ok None) (fun _ _ => Ok tt) (fun _ => Ok []) "id-1" 0 "   ").
  reflexivity.
Defined.

End DocumentOpsProps.

Module SearchFurther.
Import JsString JsNumber Retry WeaviateService.

#[local] Set Warnings "-inexact-float".
#[local] Open Scope float_scope.

Definition passes (q : SearchQuery) (item : Item) : bool :=
  geb (relevance q (toDocument item)) (similarity_threshold q).

Definition toResult (q : SearchQuery) (item : Item) : SearchResult :=
  {| sr_document := toDocument item;
     sr_score := relevance q (toDocument item) |}.

Lemma collect_filter (q : SearchQuery) : forall items results,
  collect q items results = (results ++ map (toResult q) (filter (passes q) items))%list.
Proof.
  induction items as [|item rest IH]; intros results; simpl.
  - now rewrite app_nil_r.
  - unfold passes at 1. destruct (geb _ _).
    + rewrite IH, <- app_assoc. reflexivity.
    + apply IH.
Qed.

Lemma includes_empty (s : string) : includes s EmptyString = true.
Proof. destruct s; reflexivity. Qed.

(** X16.  When the store answers at the first attempt,
    WeaviateService.searchDocuments returns exactly the candidates whose
    lexical score passes the threshold, in the order of the store's answer,
    so never more results than candidates.  Matching ignores case: two
    queries that differ only in case score every document alike.  An empty
    query string is contained in every title, so it gives every candidate
    the score 0.9. *)
Theorem searchDocuments_is_ordered_filter
  (fetch : nat -> result SearchResponse) (retries : Z) (q : SearchQuery)
  (items : list Item) :
  0 <= retries ->
  fetch 0%nat = Ok (Some items) ->
  searchDocuments fetch retries q
  = Ok (map (toResult q) (filter (passes q) items))
  /\ (List.length (map (toResult q) (filter (passes q) items))
      <= List.length items)%nat
  /\ (forall q' document,
        toLowerCase (query q') = toLowerCase (query q) ->
        relevance q' document = relevance q document)
  /\ (query q = EmptyString ->
      forall document, relevance q document = 0.9).
Proof.
  intros Hr H0. split; [|split; [|split]].
  - unfold searchDocuments.
    rewrite (SearchClaims.fetch_success_first_attempt fetch retries (Some items) Hr H0).
    simpl snd. cbv iota. f_equal. apply (collect_filter q items []).
  - rewrite length_map. apply filter_length_le.
  - intros q' document Hq. unfold relevance. rewrite Hq. reflexivity.
  - intros Hq document. unfold relevance. rewrite Hq. simpl toLowerCase.
    rewrite includes_empty. reflexivity.
Qed.

Lemma searchDocuments_is_ordered_filter_witness :
  searchDocuments (fun _ => Ok (Some SearchClaims.sample_items)) 3
    (mkSearchQuery "chunking" 10 0 0.8)
  = Ok (map (toResult (mkSearchQuery "chunking" 10 0 0.8))
            (filter (passes (mkSearchQuery "chunking" 10 0 0.8))
                    SearchClaims.sample_items)).
Proof.
  apply (searchDocuments_is_ordered_filter
           (fun _ => Ok (Some SearchClaims.sample_items)) 3
           (mkSearchQuery "chunking" 10 0 0.8) SearchClaims.sample_items);
    [lia | reflexivity].
Defined.

End SearchFurther.

(** ** Traversals of SelfIndexingService *)
Module TraversalFurther.
Import SelfIndexingService.

#[local] Open Scope string_scope.

(** Induction on the file-system tree, with the hypothesis for every entry
    of a directory. *)
Section NestedInduction.

Variable P : fsnode -> Prop.
Hypothesis P_StatFails : forall e, P (StatFails e).
Hypothesis P_IsFile : P IsFile.
Hypothesis P_IsOther : P IsOther.
Hypothesis P_Unreadable : forall e, P (UnreadableDirectory e).
Hypothesis P_Directory :
  forall items, Forall (fun entry => P (snd entry)) items -> P (Directory items).

Fixpoint fsnode_nested_ind (node : fsnode) : P node :=
  match node with
  | StatFails e => P_StatFails e
  | IsFile => P_IsFile
  | IsOther => P_IsOther
  | UnreadableDirectory e => P_Unreadable e
  | Directory items =>
      P_Directory items
        ((fix entries (l : list (string * fsnode))
            : Forall (fun entry => P (snd entry)) l :=
            match l with
            | [] => Forall_nil _
            | entry :: rest =>
                Forall_cons entry (fsnode_nested_ind (snd entry)) (entries rest)
            end) items)
  end.

End NestedInduction.

(** The directories getFilesRecursively does not enter. *)
Definition skippedByScan (item : string) : bool :=
  String.eqb item "node_modules" || String.eqb item ".git".

(** The entries generateProjectStructure passes over. *)
Definition skippedByStructure (item : string) : bool :=
  String.eqb item "node_modules" || String.eqb item ".git" || String.eqb item "dist".

Definition isDirectoryNode (node : fsnode) : bool :=
  match node with
  | Directory _ | UnreadableDirectory _ => true
  | _ => false
  end.

(** The tree with every directory named node_modules or .git emptied. *)
Fixpoint emptySkipped (node : fsnode) : fsnode :=
  match node with
  | Directory items =>
      Directory
        (map (fun entry =>
                (fst entry,
                 if skippedByScan (fst entry) && isDirectoryNode (snd entry)
                 then Directory []
                 else emptySkipped (snd entry)))
             items)
  | other => other
  end.

(** The tree without the entries named node_modules, .git or dist. *)
Fixpoint withoutSkipped (node : fsnode) : fsnode :=
  match node with
  | Directory items =>
      Directory
        ((fix strip (l : list (string * fsnode)) : list (string * fsnode) :=
            match l with
            | [] => []
            | entry :: rest =>
                if skippedByStructure (fst entry) then strip rest
                else (fst entry, withoutSkipped (snd entry)) :: strip rest
            end) items)
  | other => other
  end.

(** The entries of a directory up to the first one whose [stat] fails. *)
Fixpoint beforeStatFailure (items : list (string * fsnode))
  : list (string * fsnode) :=
  match items with
  | [] => []
  | (item, entry) :: rest =>
      match entry with
      | StatFails _ => []
      | _ => (item, entry) :: beforeStatFailure rest
      end
  end.

Definition statFails (node : fsnode) : bool :=
  match node with StatFails _ => true | _ => false end.

(** No [stat] that a scan of [node] makes fails. *)
Fixpoint statSucceeds (node : fsnode) : bool :=
  match node with
  | Directory items =>
      (fix entries (l : list (string * fsnode)) : bool :=
         match l with
         | [] => true
         | entry :: rest =>
             negb (statFails (snd entry))
             && (skippedByScan (fst entry) || statSucceeds (snd entry))
             && entries rest
         end) items
  | _ => true
  end.

(** The loop of getFilesRecursively over the entries of [dirPath], with the
    recursive call as a parameter. *)
Section ScanLoop.

Variable join : string -> string -> string.
Variable extname : string -> string.
Variable extensions : list string.
Variable descend : string -> fsnode -> list event * list string.
Variable dirPath : string.

Fixpoint scanEntries (items : list (string * fsnode)) (trace : list event)
  (files : list string) {struct items} : list event * list string :=
  match items with
  | [] => (trace, files)
  | (item, entry) :: rest =>
      let fullPath := join dirPath item in
      match entry with
      | StatFails e =>
          ((trace ++ [Stat fullPath;
                      ConsoleWarn ("Failed to read directory " ++ dirPath ++ ":") e])%list,
           files)
      | Directory _ | UnreadableDirectory _ =>
          if String.eqb item "node_modules" || String.eqb item ".git"
          then scanEntries rest (trace ++ [Stat fullPath])%list files
          else
            let (subTrace, subFiles) := descend fullPath entry in
            scanEntries rest (trace ++ [Stat fullPath] ++ subTrace)%list
                 (files ++ subFiles)%list
      | IsFile =>
          if arrayIncludes extensions (extname item)
          then scanEntries rest (trace ++ [Stat fullPath])%list (files ++ [fullPath])%list
          else scanEntries rest (trace ++ [Stat fullPath])%list files
      | IsOther => scanEntries rest (trace ++ [Stat fullPath])%list files
      end
  end.

(** What one entry adds to the files found. *)
Definition found (entry : string * fsnode) : list string :=
  match snd entry with
  | IsFile =>
      if arrayIncludes extensions (extname (fst entry))
      then [join dirPath (fst entry)] else []
  | Directory _ | UnreadableDirectory _ =>
      if skippedByScan (fst entry) then []
      else snd (descend (join dirPath (fst entry)) (snd entry))
  | _ => []
  end.

(** The loop adds the files of the entries that come before the first
    failure of [stat], in order, and nothing else. *)
Lemma scanEntries_files : forall items trace files,
  snd (scanEntries items trace files)
  = (files ++ flat_map found (beforeStatFailure items))%list.
Proof.
  induction items as [|[item entry] rest IH]; intros trace files.
  - simpl. now rewrite app_nil_r.
  - destruct entry as [e| | |e|sub]; cbn [scanEntries beforeStatFailure flat_map];
      try unfold found at 1; cbn [fst snd]; unfold skippedByScan.
    + simpl. now rewrite app_nil_r.
    + destruct (arrayIncludes extensions (extname item));
        rewrite IH; [now rewrite <- app_assoc | reflexivity].
    + now rewrite IH.
    + destruct (String.eqb item "node_modules" || String.eqb item ".git").
      * now rewrite IH.
      * destruct (descend (join dirPath item) (UnreadableDirectory e)) as [t f].
        rewrite IH. cbn [snd]. now rewrite <- app_assoc.
    + destruct (String.eqb item "node_modules" || String.eqb item ".git").
      * now rewrite IH.
      * destruct (descend (join dirPath item) (Directory sub)) as [t f].
        rewrite IH. cbn [snd]. now rewrite <- app_assoc.
Qed.

(** Past entries whose [stat] succeeds the loop goes on with the rest. *)
Lemma scanEntries_app : forall before rest trace files,
  Forall (fun entry => statFails (snd entry) = false) before ->
  scanEntries (before ++ rest) trace files
  = scanEntries rest (fst (scanEntries before trace files))
      (snd (scanEntries before trace files)).
Proof.
  induction before as [|[item entry] before IH]; intros rest trace files Hok.
  - reflexivity.
  - inversion Hok as [|x xs Hentry Hbefore]; subst. cbn [snd] in Hentry.
    specialize (IH rest).
    destruct entry as [e| | |e|sub]; try discriminate Hentry;
      cbn [scanEntries app].
    + destruct (arrayIncludes extensions (extname item)); now apply IH.
    + now apply IH.
    + destruct (String.eqb item "node_modules" || String.eqb item ".git");
        [now apply IH|].
      destruct (descend (join dirPath item) (UnreadableDirectory e)) as [t f].
      now apply IH.
    + destruct (String.eqb item "node_modules" || String.eqb item ".git");
        [now apply IH|].
      destruct (descend (join dirPath item) (Directory sub)) as [t f].
      now apply IH.
Qed.

End ScanLoop.

Section Scan.

Variable join : string -> string -> string.
Variable extname : string -> string.
Variable extensions : list string.

#[local] Abbreviation getFiles :=
  (fun dirPath node => getFilesRecursively join extname dirPath node extensions).

Lemma getFiles_Directory (dirPath : string) (items : list (string * fsnode)) :
  getFiles dirPath (Directory items)
  = scanEntries join extname extensions getFiles dirPath items [Readdir dirPath] [].
Proof. reflexivity. Qed.

(** [listedFile dirPath node path]: [path] is [join(dir, item)] for an
    entry [item] that is a file with an extension of the allowlist, in the
    directory [node] scanned at [dirPath] or in a directory below it that is
    reached through directories not named node_modules or .git. *)
Inductive listedFile : string -> fsnode -> string -> Prop :=
| listed_here (dirPath : string) (items : list (string * fsnode)) (item : string) :
    In (item, IsFile) items ->
    arrayIncludes extensions (extname item) = true ->
    listedFile dirPath (Directory items) (join dirPath item)
| listed_below (dirPath : string) (items : list (string * fsnode)) (item : string)
    (sub : list (string * fsnode)) (path : string) :
    In (item, Directory sub) items ->
    skippedByScan item = false ->
    listedFile (join dirPath item) (Directory sub) path ->
    listedFile dirPath (Directory items) path.

Lemma getFiles_files (dirPath : string) (items : list (string * fsnode)) :
  snd (getFiles dirPath (Directory items))
  = flat_map (found join extname extensions getFiles dirPath)
      (beforeStatFailure items).
Proof.
  exact (scanEntries_files join extname extensions getFiles dirPath items
           [Readdir dirPath] []).
Qed.

Lemma beforeStatFailure_incl : forall items entry,
  In entry (beforeStatFailure items) -> In entry items.
Proof.
  induction items as [|[item node] rest IH]; intros entry H; [contradiction|].
  destruct node; simpl in H; try contradiction;
    (destruct H as [<-|H]; [left; reflexivity | right; now apply IH]).
Qed.

Definition entrySucceeds (entry : string * fsnode) : bool :=
  negb (statFails (snd entry))
  && (skippedByScan (fst entry) || statSucceeds (snd entry)).

Lemma statSucceeds_Directory (items : list (string * fsnode)) :
  statSucceeds (Directory items) = forallb entrySucceeds items.
Proof.
  induction items as [|entry rest IH]; [reflexivity|].
  cbn [forallb]. rewrite <- IH. reflexivity.
Qed.

Lemma beforeStatFailure_all : forall items,
  forallb entrySucceeds items = true -> beforeStatFailure items = items.
Proof.
  induction items as [|[item node] rest IH]; intros H; [reflexivity|].
  cbn [forallb] in H. apply andb_true_iff in H. destruct H as [Hentry Hrest].
  unfold entrySucceeds in Hentry. cbn [fst snd] in Hentry.
  destruct node; simpl in Hentry; try discriminate Hentry;
    simpl; now rewrite (IH Hrest).
Qed.

Lemma getFiles_listed : forall node dirPath,
  Forall (listedFile dirPath node) (snd (getFiles dirPath node)).
Proof.
  induction node as [e| | |e|items IH] using fsnode_nested_ind; intros dirPath;
    try (simpl; constructor).
  rewrite getFiles_files. apply Forall_forall. intros path Hpath.
  apply in_flat_map in Hpath. destruct Hpath as [[item entry] [Hin Hfound]].
  apply beforeStatFailure_incl in Hin.
  rewrite Forall_forall in IH. specialize (IH _ Hin). cbn [snd] in IH.
  unfold found in Hfound. cbn [fst snd] in Hfound.
  destruct entry as [e| | |e|sub]; try contradiction.
  - destruct (arrayIncludes extensions (extname item)) eqn:Hext; [|contradiction].
    destruct Hfound as [<-|[]]. now apply listed_here.
  - destruct (skippedByScan item); contradiction.
  - destruct (skippedByScan item) eqn:Hskip; [contradiction|].
    apply (listed_below dirPath items item sub path Hin Hskip).
    specialize (IH (join dirPath item)). rewrite Forall_forall in IH. now apply IH.
Qed.

Lemma getFiles_complete (dirPath : string) (node : fsnode) (path : string) :
  listedFile dirPath node path ->
  statSucceeds node = true ->
  In path (snd (getFiles dirPath node)).
Proof.
  induction 1 as [dirPath items item Hin Hext
                 |dirPath items item sub path Hin Hskip Hlisted IH];
    intros Hok; rewrite statSucceeds_Directory in Hok;
    rewrite getFiles_files, (beforeStatFailure_all _ Hok); apply in_flat_map.
  - exists (item, IsFile). split; [exact Hin|].
    unfold found. cbn [fst snd]. rewrite Hext. left. reflexivity.
  - exists (item, Directory sub). split; [exact Hin|].
    unfold found. cbn [fst snd]. rewrite Hskip. apply IH.
    rewrite forallb_forall in Hok. specialize (Hok _ Hin).
    unfold entrySucceeds in Hok. cbn [fst snd] in Hok. rewrite Hskip in Hok.
    simpl in Hok. exact Hok.
Qed.

(** A failure of [stat] on an entry ends the scan of its directory: the
    failure is logged, the files found before it are kept and the entries
    after it are not looked at. *)
Lemma getFiles_stat_failure (dirPath item : string) (e : error)
  (before after : list (string * fsnode)) :
  Forall (fun entry => statFails (snd entry) = false) before ->
  getFiles dirPath (Directory (before ++ (item, StatFails e) :: after))
  = ((fst (getFiles dirPath (Directory before))
      ++ [Stat (join dirPath item);
          ConsoleWarn ("Failed to read directory " ++ dirPath ++ ":") e])%list,
     snd (getFiles dirPath (Directory before))).
Proof.
  intros Hok.
  pose proof (scanEntries_app join extname extensions getFiles dirPath before
                ((item, StatFails e) :: after) [Readdir dirPath] [] Hok) as H.
  exact H.
Qed.

Lemma scanEntries_emptySkipped
  (descend : string -> fsnode -> list event * list string) (dirPath : string) :
  forall items,
    Forall (fun entry => forall d,
              snd (descend d (snd entry)) = snd (descend d (emptySkipped (snd entry))))
           items ->
    forall trace trace' files,
      snd (scanEntries join extname extensions descend dirPath items trace files)
      = snd (scanEntries join extname extensions descend dirPath
               (map (fun entry =>
                       (fst entry,
                        if skippedByScan (fst entry) && isDirectoryNode (snd entry)
                        then Directory []
                        else emptySkipped (snd entry)))
                    items)
               trace' files).
Proof.
  induction items as [|[item entry] rest IH]; intros Hitems trace trace' files.
  - reflexivity.
  - inversion Hitems as [|x xs Hentry Hrest]; subst. cbn [snd] in Hentry.
    specialize (IH Hrest). cbn [map fst snd]. unfold skippedByScan at 1.
    destruct (String.eqb item "node_modules" || String.eqb item ".git") eqn:Hskip.
    + destruct entry as [e| | |e|sub]; cbn [isDirectoryNode andb emptySkipped].
      * reflexivity.
      * simpl. destruct (arrayIncludes extensions (extname item)); apply IH.
      * simpl. apply IH.
      * simpl. rewrite Hskip. apply IH.
      * simpl scanEntries. rewrite Hskip. apply IH.
    + cbn [andb].
      specialize (Hentry (join dirPath item)).
      destruct entry as [e| | |e|sub].
      * reflexivity.
      * simpl. destruct (arrayIncludes extensions (extname item)); apply IH.
      * simpl. apply IH.
      * simpl. rewrite Hskip.
        destruct (descend (join dirPath item) (UnreadableDirectory e)) as [t f].
        apply IH.
      * assert (Hshape : exists sub', emptySkipped (Directory sub) = Directory sub')
          by (eexists; reflexivity).
        destruct Hshape as [sub' Hsub']. rewrite Hsub' in *.
        simpl scanEntries. rewrite Hskip. cbv zeta.
        destruct (descend (join dirPath item) (Directory sub)) as [t1 f1].
        destruct (descend (join dirPath item) (Directory sub')) as [t2 f2].
        simpl in Hentry. subst f2. apply IH.
Qed.

Lemma getFiles_emptySkipped : forall node dirPath,
  snd (getFiles dirPath node) = snd (getFiles dirPath (emptySkipped node)).
Proof.
  induction node as [e| | |e|items IH] using fsnode_nested_ind; intros dirPath;
    try reflexivity.
  change (emptySkipped (Directory items)) with
    (Directory (map (fun entry =>
                 (fst entry,
                  if skippedByScan (fst entry) && isDirectoryNode (snd entry)
                  then Directory []
                  else emptySkipped (snd entry))) items)).
  rewrite !getFiles_Directory. now apply (scanEntries_emptySkipped getFiles).
Qed.

(** X17.  getFilesRecursively returns only files of the scanned tree whose
    extension is in the allowlist: every path it returns is [join(dir, item)]
    for an entry [item] that is a file with
    [extensions.includes(extname(item))], in the scanned directory or in a
    directory reached from it through directories not named node_modules or
    .git.  When no [stat] fails it returns every such file.  It does not
    look into directories named node_modules or .git: the paths returned are
    the same when every such directory is emptied. *)
Theorem getFilesRecursively_allowlist_and_exclusions (node : fsnode)
  (dirPath : string) :
  Forall (listedFile dirPath node)
    (snd (getFilesRecursively join extname dirPath node extensions))
  /\ (statSucceeds node = true ->
      forall path,
        listedFile dirPath node path ->
        In path (snd (getFilesRecursively join extname dirPath node extensions)))
  /\ snd (getFilesRecursively join extname dirPath node extensions)
     = snd (getFilesRecursively join extname dirPath (emptySkipped node) extensions).
Proof.
  split; [apply getFiles_listed|]. split.
  - intros Hok path Hlisted. now apply getFiles_complete.
  - apply getFiles_emptySkipped.
Qed.

End Scan.

(** The loop of generateProjectStructure over the entries of [dirPath], with
    the recursive call as a parameter. *)
Section RenderLoop.

Variable join : string -> string -> string.
Variable descend : string -> string -> fsnode -> list event * string.
Variable dirPath prefix : string.

Fixpoint renderEntries (items : list (string * fsnode)) (trace : list event)
  (structure : list string) {struct items} : list event * string :=
  match items with
  | [] => (trace, String.concat newline structure)
  | (item, entry) :: rest =>
      if String.eqb item "node_modules" || String.eqb item ".git"
         || String.eqb item "dist"
      then renderEntries rest trace structure
      else
        let fullPath := join dirPath item in
        match entry with
        | StatFails e =>
            ((trace ++ [Stat fullPath;
                        ConsoleWarn ("Failed to generate structure for "
                                     ++ dirPath ++ ":") e])%list,
             String.concat newline structure)
        | Directory _ | UnreadableDirectory _ =>
            let (subTrace, subStructure) :=
              descend fullPath (prefix ++ "  ") entry in
            renderEntries rest (trace ++ [Stat fullPath] ++ subTrace)%list
                 (structure ++ [(prefix ++ "📁 " ++ item ++ "/")%string; subStructure])%list
        | IsFile | IsOther =>
            renderEntries rest (trace ++ [Stat fullPath])%list
                 (structure ++ [(prefix ++ "📄 " ++ item)%string])%list
        end
  end.

End RenderLoop.

Section Render.

Variable join : string -> string -> string.

Lemma generateProjectStructure_Directory (dirPath prefix : string)
  (items : list (string * fsnode)) :
  generateProjectStructure join dirPath prefix (Directory items)
  = renderEntries join (generateProjectStructure join) dirPath prefix items
      [Readdir dirPath] [].
Proof. reflexivity. Qed.

Definition stripEntries : list (string * fsnode) -> list (string * fsnode) :=
  fix strip (l : list (string * fsnode)) : list (string * fsnode) :=
    match l with
    | [] => []
    | entry :: rest =>
        if skippedByStructure (fst entry) then strip rest
        else (fst entry, withoutSkipped (snd entry)) :: strip rest
    end.

Lemma withoutSkipped_Directory (items : list (string * fsnode)) :
  withoutSkipped (Directory items) = Directory (stripEntries items).
Proof. reflexivity. Qed.

Lemma renderEntries_withoutSkipped
  (descend : string -> string -> fsnode -> list event * string)
  (dirPath prefix : string) :
  forall items,
    Forall (fun entry => forall d p,
              descend d p (snd entry) = descend d p (withoutSkipped (snd entry)))
           items ->
    forall trace structure,
      renderEntries join descend dirPath prefix items trace structure
      = renderEntries join descend dirPath prefix (stripEntries items) trace structure.
Proof.
  induction items as [|[item entry] rest IH]; intros Hitems trace structure.
  - reflexivity.
  - inversion Hitems as [|x xs Hentry Hrest]; subst. cbn [snd] in Hentry.
    specialize (IH Hrest). cbn [stripEntries fst snd]. unfold skippedByStructure at 1.
    destruct (String.eqb item "node_modules" || String.eqb item ".git"
              || String.eqb item "dist") eqn:Hskip.
    + simpl renderEntries. rewrite Hskip. apply IH.
    + specialize (Hentry (join dirPath item) (prefix ++ "  ")).
      destruct entry as [e| | |e|sub].
      * simpl. rewrite Hskip. reflexivity.
      * simpl. rewrite Hskip. apply IH.
      * simpl. rewrite Hskip. apply IH.
      * simpl. rewrite Hskip.
        destruct (descend (join dirPath item) (prefix ++ "  ") (UnreadableDirectory e))
          as [t f].
        apply IH.
      * rewrite withoutSkipped_Directory in *.
        simpl renderEntries. rewrite Hskip. cbv zeta.
        rewrite <- Hentry.
        destruct (descend (join dirPath item) (prefix ++ "  ") (Directory sub))
          as [t f].
        apply IH.
Qed.

(** X18.  generateProjectStructure passes over every entry named
    node_modules, .git or dist, file or directory, without asking the file
    system about it: the text it renders and the calls it makes are the same
    as on the tree from which all such entries are removed. *)
Theorem generateProjectStructure_ignores_excluded (node : fsnode) :
  forall dirPath prefix,
    generateProjectStructure join dirPath prefix node
    = generateProjectStructure join dirPath prefix (withoutSkipped node).
Proof.
  induction node as [e| | |e|items IH] using fsnode_nested_ind;
    intros dirPath prefix; try reflexivity.
  rewrite withoutSkipped_Directory, !generateProjectStructure_Directory.
  now apply renderEntries_withoutSkipped.
Qed.

End Render.

Example structure_skips_build_output :
  snd (generateProjectStructure (fun d item => d ++ "/" ++ item) "." ""
         (Directory [("dist", Directory [("bundle.js", IsFile)]);
                     ("src", Directory [("index.ts", IsFile);
                                        ("node_modules", IsFile)]);
                     (".git", StatFails (ExternalError "EACCES"));
                     ("README.md", IsFile)]))
  = "📁 src/" ++ newline ++ "  📄 index.ts" ++ newline ++ "📄 README.md".
Proof. reflexivity. Qed.

(** The size recorded for that text is its length in UTF-16 code units, two
    for each pictograph. *)
Example structure_size_counts_code_units :
  size (structureDocument "0"
          ("📁 src/" ++ newline ++ "  📄 index.ts" ++ newline ++ "📄 README.md"))
  = 34
  /\ jsLength "📁" = 2 /\ jsLength "📄 a" = 4 /\ jsLength "plain text" = 10.
Proof. repeat split. Qed.

End TraversalFurther.

(** ** Failures inside a pass *)
Module IsolationClaims.
Import JsString SelfIndexingService SchedulerProps TraversalFurther.

#[local] Open Scope string_scope.

(** [file] was handed to readFile. *)
Definition attempted (file : string) (trace : list event) : bool :=
  existsb (fun ev => match ev with
                     | ReadFile path => String.eqb path file
                     | _ => false
                     end) trace.

(** A project in which every file can be read and every document stored;
    "docs/" is a directory, so reading it as a file fails.  For the names
    used here [fromDot] is path.extname, [afterSlash] path.basename and
    [joinPath] path.join. *)
Definition sample_readFile (path : string) : result string :=
  if String.eqb path "docs/"
  then Throw (ExternalError "EISDIR: illegal operation on a directory, read")
  else Ok "export {}".

Fixpoint fromDot (s : string) : string :=
  match s with
  | EmptyString => EmptyString
  | String c rest => if Ascii.eqb c "."%char then s else fromDot rest
  end.

Fixpoint afterSlash (s : string) : string :=
  match s with
  | EmptyString => EmptyString
  | String c rest =>
      if includes rest "/" then afterSlash rest
      else if Ascii.eqb c "/"%char then rest else s
  end.

Fixpoint endsWithSlash (s : string) : bool :=
  match s with
  | EmptyString => false
  | String c EmptyString => Ascii.eqb c "/"%char
  | String _ rest => endsWithSlash rest
  end.

Definition joinPath (dir item : string) : string :=
  if String.eqb dir "." then item
  else if endsWithSlash dir then dir ++ item
  else dir ++ "/" ++ item.

(** src/ holds three files; the second is a link to a file that is gone, so
    [stat] fails on it. *)
Definition sample_src : fsnode :=
  Directory [("a.ts", IsFile);
             ("broken.ts",
              StatFails (ExternalError "ENOENT: no such file or directory, stat"));
             ("c.ts", IsFile)].

Definition sample_root : fsnode :=
  Directory [("CHANGELOG.md", IsFile); ("CONTRIBUTING.md", IsFile);
             ("Dockerfile", IsFile); ("README.md", IsFile);
             ("docker-compose.yml", IsFile); ("docs", Directory []);
             ("package.json", IsFile); ("src", sample_src);
             ("tsconfig.json", IsFile)].


Section Pass.

Variable readFile : string -> result string.
Variable docsDirectory srcDirectory projectRoot : fsnode.
Variable execAsync : string -> result string.
Variable addDocument : IndexedDocument -> result unit.
Variable join : string -> string -> string.
Variable extname basename : string -> string.
Variable now : string.

#[local] Abbreviation indexFile' := (indexFile readFile addDocument extname basename now).
#[local] Abbreviation indexListedFile' :=
  (indexListedFile readFile addDocument extname basename now).
#[local] Abbreviation indexDocumentationFile' :=
  (indexDocumentationFile readFile addDocument extname basename now).
#[local] Abbreviation indexConfigFile' :=
  (indexConfigFile readFile addDocument extname basename now).
#[local] Abbreviation indexDirectory' :=
  (indexDirectory readFile addDocument join extname basename now).
#[local] Abbreviation getFiles' := (getFilesRecursively join extname).
#[local] Abbreviation indexDocsDirectory' :=
  (indexDocsDirectory readFile docsDirectory addDocument join extname basename now).
#[local] Abbreviation indexSrcDirectory' :=
  (indexSrcDirectory readFile srcDirectory addDocument join extname basename now).
#[local] Abbreviation documentation :=
  (indexDocumentation readFile docsDirectory addDocument join extname basename now).
#[local] Abbreviation code :=
  (indexCodeFiles readFile srcDirectory addDocument join extname basename now).
#[local] Abbreviation history := (indexDevelopmentHistory execAsync addDocument now).
#[local] Abbreviation historyBody := (developmentHistoryBody execAsync addDocument now).
#[local] Abbreviation structure := (indexProjectStructure projectRoot addDocument join now).

(** A guarded attempt on one file: the file is read first, the attempt
    returns normally, and a failure of indexFile is logged. *)
Lemma guarded_indexFile (context : DevelopmentContext) (path message : string) :
  exists rest,
    try_catch (indexFile' path context) (fun e => emit (ConsoleWarn message e))
    = (ReadFile path :: rest, Ok tt)
    /\ (forall e, snd (indexFile' path context) = Throw e ->
                  In (ConsoleWarn message e) rest).
Proof.
  destruct (indexFile_reads_first readFile addDocument extname basename now
              path context) as [rest Hrest].
  destruct (indexFile' path context) as [trace r] eqn:Hm. simpl in Hrest. subst trace.
  destruct r as [[]|e0]; simpl.
  - exists rest. split; [reflexivity|]. intros e He. discriminate He.
  - exists (rest ++ [ConsoleWarn message e0])%list. split; [reflexivity|].
    intros e He. injection He as <-. apply in_or_app. right. left. reflexivity.
Qed.

(** A guard around a call that returns normally changes nothing. *)
Lemma try_catch_normal (m : M unit) (handler : error -> M unit) :
  returns_normally m -> try_catch m handler = m.
Proof.
  intros H. rewrite (returns_normally_eta m H). reflexivity.
Qed.

Lemma developmentHistoryBody_starts :
  exists rest, fst historyBody = Exec gitLog :: rest.
Proof.
  unfold developmentHistoryBody, call. unfold bind at 1.
  destruct (execAsync gitLog) as [commits|e]; [|eexists; reflexivity].
  match goal with |- context [let (_, _) := ?m in _] => destruct m as [trace r] end.
  eexists. reflexivity.
Qed.


End Pass.

End IsolationClaims.

(** ** SelfIndexingService.startAutoIndexing and stopAutoIndexing *)
Module AutoIndexing.
Import SelfIndexingService.

(** The interval timers of the process: the handles given out so far are
    below [nextTimer]; [active] holds those set and not yet cleared. *)
Record timers : Type := mkTimers {
  nextTimer : Z;
  active : list Z
}.

Definition setInterval (w : timers) : Z * timers :=
  (nextTimer w, {| nextTimer := nextTimer w + 1; active := nextTimer w :: active w |}).

Definition clearInterval (handle : Z) (w : timers) : timers :=
  {| nextTimer := nextTimer w;
     active := filter (fun t => negb (t =? handle)) (active w) |}.

(** [enabled] is [config.selfIndexing.enabled], [intervalText] the rendering
    of [config.selfIndexing.autoIndexInterval] in the log line, and [pass]
    is performIndexing. *)
Definition startAutoIndexing (enabled : bool) (intervalText : string)
  (pass : service_state -> service_state * list event)
  (st : service_state) (w : timers) : service_state * timers * list event :=
  if negb enabled then (st, w, [ConsoleLog "Self-indexing is disabled"])
  else
    let (st1, trace) := pass st in
    let (handle, w1) := setInterval w in
    ({| isIndexing := isIndexing st1; indexingInterval := Some handle |},
     w1,
     (ConsoleLog "Starting self-indexing service..." :: trace
      ++ [ConsoleLog ("Self-indexing service started with " ++ intervalText
                      ++ "ms interval")%string])%list).

Definition stopAutoIndexing (st : service_state) (w : timers)
  : service_state * timers * list event :=
  match indexingInterval st with
  | Some handle =>
      ({| isIndexing := isIndexing st; indexingInterval := None |},
       clearInterval handle w,
       [ConsoleLog "Self-indexing service stopped"])
  | None => (st, w, [])
  end.

End AutoIndexing.

Module AutoIndexingProps.
Import SelfIndexingService AutoIndexing.

(** X19.  startAutoIndexing does not check whether a timer is already
    installed.  When it is called (enabled) on a service that holds the
    handle of an active timer, the handle is overwritten by the new timer's:
    stopAutoIndexing then clears the new timer only, the older timer stays
    active, and since the handle is gone a further stopAutoIndexing does
    nothing.  stopAutoIndexing never changes isIndexing. *)
Theorem second_start_leaks_first_timer
  (documentation code history structure : M unit) (intervalText : string)
  (st : service_state) (w : timers) (t0 : Z) :
  indexingInterval st = Some t0 ->
  In t0 (active w) ->
  (forall t, In t (active w) -> t < nextTimer w) ->
  let started :=
    startAutoIndexing true intervalText
      (performIndexingWith documentation code history structure) st w in
  let stopped := stopAutoIndexing (fst (fst started)) (snd (fst started)) in
  indexingInterval (fst (fst started)) = Some (nextTimer w)
  /\ In t0 (active (snd (fst started)))
  /\ In (nextTimer w) (active (snd (fst started)))
  /\ indexingInterval (fst (fst stopped)) = None
  /\ isIndexing (fst (fst stopped)) = isIndexing (fst (fst started))
  /\ In t0 (active (snd (fst stopped)))
  /\ ~ In (nextTimer w) (active (snd (fst stopped)))
  /\ stopAutoIndexing (fst (fst stopped)) (snd (fst stopped))
     = (fst (fst stopped), snd (fst stopped), []).
Proof.
  intros Hhandle Hactive Hfresh. cbv zeta.
  unfold startAutoIndexing. simpl negb. cbv iota.
  destruct (performIndexingWith documentation code history structure st)
    as [st1 trace]. unfold setInterval. simpl.
  unfold stopAutoIndexing. simpl.
  pose proof (Hfresh t0 Hactive) as Hlt.
  split; [reflexivity|]. split; [now right|]. split; [now left|].
  split; [reflexivity|]. split; [reflexivity|]. split.
  - destruct (t0 =? nextTimer w) eqn:Heq; [apply Z.eqb_eq in Heq; lia|].
    rewrite Z.eqb_refl. simpl. apply filter_In. split; [exact Hactive|].
    now rewrite Heq.
  - split; [|reflexivity].
    rewrite Z.eqb_refl. simpl. intros Hin. apply filter_In in Hin as [_ Hne].
    rewrite Z.eqb_refl in Hne. discriminate Hne.
Qed.

Lemma second_start_leaks_first_timer_witness :
  let started :=
    startAutoIndexing true "3600000"
      (performIndexingWith (ret tt) (ret tt) (ret tt) (ret tt))
      (mkState false (Some 0)) (mkTimers 1 [0]) in
  let stopped := stopAutoIndexing (fst (fst started)) (snd (fst started)) in
  indexingInterval (fst (fst started)) = Some 1
  /\ In 0 (active (snd (fst started)))
  /\ In 1 (active (snd (fst started)))
  /\ indexingInterval (fst (fst stopped)) = None
  /\ isIndexing (fst (fst stopped)) = isIndexing (fst (fst started))
  /\ In 0 (active (snd (fst stopped)))
  /\ ~ In 1 (active (snd (fst stopped)))
  /\ stopAutoIndexing (fst (fst stopped)) (snd (fst stopped))
     = (fst (fst stopped), snd (fst stopped), []).
Proof.
  apply (second_start_leaks_first_timer (ret tt) (ret tt) (ret tt) (ret tt)
           "3600000" (mkState false (Some 0)) (mkTimers 1 [0]) 0).
  - reflexivity.
  - simpl. now left.
  - simpl. intros t [<-|[]]. lia.
Defined.

End AutoIndexingProps.

(** ** chunkText without overlap: the windows, their metadata, the round trip *)
Module ChunkFurther.
Import Utils DocumentService Retry Pagination.

(** [s.slice(n)] for [0 <= n]: the suffix from position [n]. *)
Fixpoint drop (n : nat) (s : string) : string :=
  match n, s with
  | O, _ => s
  | S k, EmptyString => EmptyString
  | S k, String _ rest => drop k rest
  end.

Lemma drop_all : forall s n, (String.length s <= n)%nat -> drop n s = EmptyString.
Proof.
  induction s as [|c rest IH]; intros n Hn; destruct n as [|n]; simpl in *;
    try reflexivity; try lia.
  apply IH. lia.
Qed.

Lemma substring_head_drop : forall n s,
  String.append (substring 0 n s) (drop n s) = s.
Proof.
  induction n as [|n IH]; intros s; destruct s as [|c rest]; simpl; try reflexivity.
  now rewrite IH.
Qed.

Lemma substring_drop : forall a n s,
  String.append (substring a n s) (drop (a + n) s) = drop a s.
Proof.
  induction a as [|a IH]; intros n s.
  - simpl Nat.add. simpl drop at 2. apply substring_head_drop.
  - destruct s as [|c rest]; simpl.
    + destruct n; reflexivity.
    + apply IH.
Qed.

Lemma append_empty_r : forall s, String.append s EmptyString = s.
Proof. induction s as [|c rest IH]; simpl; [reflexivity | now rewrite IH]. Qed.

Lemma substring_length_le : forall a n s, (String.length (substring a n s) <= n)%nat.
Proof.
  induction a as [|a IH]; intros n s.
  - revert s. induction n as [|n IHn]; intros s; destruct s; simpl; try lia.
    specialize (IHn s). lia.
  - destruct s; simpl; [destruct n; simpl; lia | apply IH].
Qed.

(** [slice] between two positions inside the text. *)
Lemma slice_inside (text : string) (a b : Z) :
  0 <= a <= b -> b <= strlen text ->
  Js.slice text a b = substring (Z.to_nat a) (Z.to_nat (b - a)) text.
Proof.
  intros Hab Hb. unfold Js.slice.
  assert (Ha : (a <? 0) = false) by (apply Z.ltb_ge; lia).
  assert (Hb' : (b <? 0) = false) by (apply Z.ltb_ge; lia).
  rewrite Ha, Hb'. cbv zeta.
  rewrite (Z.min_l a) by lia. rewrite (Z.min_l b) by lia.
  rewrite Z.max_l by lia. reflexivity.
Qed.

Section Windows.

Variable text : string.
Variable chunkSize : Z.
Hypothesis chunkSize_pos : 0 < chunkSize.

(** The [k]-th window of width [chunkSize]. *)
Definition window (k : Z) : string :=
  Js.slice text (k * chunkSize) (Z.min ((k + 1) * chunkSize) (strlen text)).

Definition windowCount : Z := ceilDiv (strlen text) chunkSize.

Lemma windowCount_bounds :
  chunkSize * (windowCount - 1) < strlen text <= chunkSize * windowCount.
Proof. apply UtilsFurther.ceilDiv_bounds. exact chunkSize_pos. Qed.

Lemma chunk_loop_windows : forall fuel (k : nat) st,
  Z.of_nat k <= windowCount ->
  cs_start st = Z.min (Z.of_nat k * chunkSize) (strlen text) ->
  cs_chunks st = map window (zrange 0 k) ->
  (Z.to_nat windowCount - k <= fuel)%nat ->
  chunk_loop fuel text chunkSize 0 st
  = Some (map window (zrange 0 (Z.to_nat windowCount))).
Proof.
  pose proof windowCount_bounds as Hb.
  induction fuel as [|fuel IH]; intros k st Hk Hstart Hchunks Hfuel.
  - simpl. assert (Z.of_nat k = windowCount) by lia.
    assert (Hge : (cs_start st <? strlen text) = false).
    { apply Z.ltb_ge. rewrite Hstart. nia. }
    rewrite Hge, Hchunks. do 3 f_equal. lia.
  - simpl. destruct (cs_start st <? strlen text) eqn:Hlt.
    + apply Z.ltb_lt in Hlt. rewrite Hstart in Hlt.
      assert (Hkc : Z.of_nat k * chunkSize < strlen text) by lia.
      assert (Hk1 : Z.of_nat k < windowCount) by nia.
      apply (IH (S k)).
      * lia.
      * unfold chunk_step. cbn [cs_start]. rewrite Hstart, Nat2Z.inj_succ.
        rewrite (Z.min_l (Z.of_nat k * chunkSize)) by lia.
        replace (Z.succ (Z.of_nat k) * chunkSize)
          with (Z.of_nat k * chunkSize + chunkSize) by lia.
        lia.
      * unfold chunk_step. cbn [cs_chunks]. rewrite Hchunks, Hstart.
        rewrite (Z.min_l (Z.of_nat k * chunkSize)) by lia.
        replace (S k) with (k + 1)%nat by lia.
        rewrite <- RetryFurther.zrange_snoc, map_app. cbn [map].
        do 2 f_equal. unfold window. rewrite Z.add_0_l. do 2 f_equal. lia.
      * lia.
    + apply Z.ltb_ge in Hlt. rewrite Hstart in Hlt.
      assert (Z.of_nat k = windowCount) by nia.
      rewrite Hchunks. do 3 f_equal. lia.
Qed.

Lemma chunkText_windows (fuel : nat) :
  strlen text > chunkSize ->
  (Z.to_nat windowCount <= fuel)%nat ->
  chunkText fuel text chunkSize 0
  = Some (map window (zrange 0 (Z.to_nat windowCount))).
Proof.
  intros Hlen Hfuel. unfold chunkText.
  assert (Hb : (strlen text <=? chunkSize) = false) by (apply Z.leb_gt; lia).
  rewrite Hb. pose proof windowCount_bounds.
  apply (chunk_loop_windows fuel 0 chunk_init); simpl; try reflexivity; lia.
Qed.

End Windows.

Lemma concat_cons (x : string) (xs : list string) :
  String.concat EmptyString (x :: xs)
  = String.append x (String.concat EmptyString xs).
Proof.
  destruct xs as [|y ys]; simpl; [now rewrite append_empty_r | reflexivity].
Qed.

Lemma window_inside (text : string) (chunkSize k : Z) :
  0 < chunkSize -> 0 <= k -> k * chunkSize < strlen text ->
  window text chunkSize k
  = substring (Z.to_nat (k * chunkSize))
      (Z.to_nat (Z.min ((k + 1) * chunkSize) (strlen text) - k * chunkSize)) text.
Proof.
  intros Hc Hk Hlt. unfold window. apply slice_inside; nia.
Qed.

Lemma windows_concat (text : string) (chunkSize : Z) :
  0 < chunkSize ->
  forall (m : nat) (k : Z),
    0 <= k ->
    k + Z.of_nat m = windowCount text chunkSize ->
    String.concat EmptyString (map (window text chunkSize) (zrange k m))
    = drop (Z.to_nat (k * chunkSize)) text.
Proof.
  intros Hc. pose proof (windowCount_bounds text chunkSize Hc) as Hb.
  induction m as [|m IH]; intros k Hk Hsum.
  - simpl. symmetry. apply drop_all. unfold strlen in Hb. nia.
  - cbn [zrange map]. rewrite concat_cons, (IH (k + 1)) by lia.
    assert (Hlt : k * chunkSize < strlen text) by nia.
    rewrite (window_inside text chunkSize k Hc Hk Hlt).
    destruct (Z.le_gt_cases ((k + 1) * chunkSize) (strlen text)) as [Hin|Hout].
    + rewrite Z.min_l by lia.
      replace (Z.to_nat ((k + 1) * chunkSize))
        with (Z.to_nat (k * chunkSize)
              + Z.to_nat ((k + 1) * chunkSize - k * chunkSize))%nat by nia.
      apply substring_drop.
    + rewrite Z.min_r by lia.
      rewrite (drop_all text (Z.to_nat ((k + 1) * chunkSize)))
        by (unfold strlen in *; lia).
      rewrite <- (substring_drop (Z.to_nat (k * chunkSize))
                    (Z.to_nat (strlen text - k * chunkSize)) text).
      f_equal. symmetry. apply drop_all. unfold strlen in *. nia.
Qed.

Lemma windows_bounded (text : string) (chunkSize : Z) :
  0 < chunkSize ->
  forall (m : nat) (k : Z),
    0 <= k ->
    k + Z.of_nat m <= windowCount text chunkSize ->
    Forall (fun chunk => strlen chunk <= chunkSize)
           (map (window text chunkSize) (zrange k m)).
Proof.
  intros Hc. pose proof (windowCount_bounds text chunkSize Hc) as Hb.
  induction m as [|m IH]; intros k Hk Hsum; cbn [zrange map]; constructor.
  - assert (Hlt : k * chunkSize < strlen text) by nia.
    rewrite (window_inside text chunkSize k Hc Hk Hlt). unfold strlen at 1.
    pose proof (substring_length_le (Z.to_nat (k * chunkSize))
                  (Z.to_nat (Z.min ((k + 1) * chunkSize) (strlen text) - k * chunkSize))
                  text).
    nia.
  - apply IH; lia.
Qed.

(** X20.  Without overlap chunkText tiles the content.  For
    [chunkSize > 0], [overlap = 0] and content longer than [chunkSize] it
    returns, within [ceil(len / chunkSize)] iterations, exactly
    [ceil(len / chunkSize)] chunks, the [k]-th being
    [text.slice(k * chunkSize, min((k + 1) * chunkSize, len))]; no chunk is
    longer than [chunkSize], and the chunks concatenated give back the
    content. *)
Theorem chunkText_tiles_content (text : string) (chunkSize : Z) (fuel : nat) :
  0 < chunkSize ->
  strlen text > chunkSize ->
  (Z.to_nat (ceilDiv (strlen text) chunkSize) <= fuel)%nat ->
  exists chunks,
    chunkText fuel text chunkSize 0 = Some chunks
    /\ chunks = map (window text chunkSize)
                    (zrange 0 (Z.to_nat (ceilDiv (strlen text) chunkSize)))
    /\ zlength chunks = ceilDiv (strlen text) chunkSize
    /\ Forall (fun chunk => strlen chunk <= chunkSize) chunks
    /\ String.concat EmptyString chunks = text.
Proof.
  intros Hc Hlen Hfuel.
  pose proof (windowCount_bounds text chunkSize Hc) as Hb.
  fold (windowCount text chunkSize) in *.
  assert (Hwc : 0 <= windowCount text chunkSize) by nia.
  eexists. split; [apply (chunkText_windows text chunkSize Hc fuel Hlen Hfuel)|].
  split; [reflexivity|]. split; [|split].
  - unfold zlength. rewrite length_map, RetryProps.zrange_length. lia.
  - apply windows_bounded; lia.
  - rewrite (windows_concat text chunkSize Hc); [reflexivity | lia | lia].
Qed.

Lemma chunkText_tiles_content_witness :
  exists chunks,
    chunkText 3 "abcdefgh" 3 0 = Some chunks
    /\ chunks = map (window "abcdefgh" 3)
                    (zrange 0 (Z.to_nat (ceilDiv (strlen "abcdefgh") 3)))
    /\ zlength chunks = ceilDiv (strlen "abcdefgh") 3
    /\ Forall (fun chunk => strlen chunk <= 3) chunks
    /\ String.concat EmptyString chunks = "abcdefgh"%string.
Proof.
  apply (chunkText_tiles_content "abcdefgh" 3 3); [lia | reflexivity | vm_compute; lia].
Defined.

Lemma chunk_loop_more_fuel (text : string) (chunkSize overlap : Z) :
  forall fuel fuel' st chunks,
    chunk_loop fuel text chunkSize overlap st = Some chunks ->
    (fuel <= fuel')%nat ->
    chunk_loop fuel' text chunkSize overlap st = Some chunks.
Proof.
  induction fuel as [|fuel IH]; intros fuel' st chunks H Hle.
  - simpl in H. destruct (cs_start st <? strlen text) eqn:Hlt; [discriminate H|].
    destruct fuel'; simpl; rewrite Hlt; exact H.
  - destruct fuel' as [|fuel']; [lia|]. simpl in *.
    destruct (cs_start st <? strlen text); [|exact H].
    apply (IH fuel' _ _ H). lia.
Qed.

Lemma substring_full : forall s, substring 0 (String.length s) s = s.
Proof. induction s as [|c rest IH]; simpl; [reflexivity | now rewrite IH]. Qed.

Lemma slice_full (text : string) : Js.slice text 0 (strlen text) = text.
Proof.
  rewrite slice_inside by (unfold strlen; lia).
  rewrite Z.sub_0_r. unfold strlen. rewrite Nat2Z.id. apply substring_full.
Qed.

Lemma nth_error_windows (f : Z -> string) : forall (m : nat) (k : Z) (i : nat) a,
  nth_error (map f (zrange k m)) i = Some a ->
  a = f (k + Z.of_nat i) /\ (i < m)%nat.
Proof.
  induction m as [|m IH]; intros k i a H.
  - destruct i; discriminate H.
  - destruct i as [|i]; cbn [zrange map nth_error] in H.
    + injection H as <-. split; [f_equal; lia | lia].
    + destruct (IH _ _ _ H) as [-> Hi]. split; [f_equal; lia | lia].
Qed.

(** What chunkText returns when [overlap = 0], for any fuel that lets it
    return. *)
Lemma chunkText_zero_overlap_result (text : string) (chunkSize : Z) (fuel : nat)
  (chunks : list string) :
  0 < chunkSize ->
  chunkText fuel text chunkSize 0 = Some chunks ->
  (strlen text <= chunkSize /\ chunks = [text])
  \/ (strlen text > chunkSize
      /\ chunks = map (window text chunkSize)
                      (zrange 0 (Z.to_nat (windowCount text chunkSize)))).
Proof.
  intros Hc H. destruct (Z.le_gt_cases (strlen text) chunkSize) as [Hle|Hgt].
  - left. split; [exact Hle|]. unfold chunkText in H.
    apply Z.leb_le in Hle. rewrite Hle in H. now injection H as <-.
  - right. split; [lia|].
    pose proof (chunkText_windows text chunkSize Hc
                  (Nat.max fuel (Z.to_nat (windowCount text chunkSize)))
                  ltac:(lia) ltac:(lia)) as Hbig.
    unfold chunkText in H, Hbig.
    assert (Hb : (strlen text <=? chunkSize) = false) by (apply Z.leb_gt; lia).
    rewrite Hb in H, Hbig.
    rewrite (chunk_loop_more_fuel _ _ _ _ _ _ _ H (Nat.le_max_l _ _)) in Hbig.
    now injection Hbig as <-.
Qed.

(** X21.  With [overlap = 0] the positions addDocumentWithChunks records
    are the true ones.  For [chunkSize > 0], in every document it returns,
    the content of each chunk is the slice of the document's content between
    the chunk's recorded start and end positions, both recorded overlaps are
    0, and the end position of every chunk is the start position of the
    next. *)
Theorem zero_overlap_positions_are_exact
  (generateChunkEmbeddings : list string -> result (list vector))
  (generateEmbedding : string -> result vector)
  (weaviate_addDocument : Document -> result unit)
  (fuel : nat) (request : CreateDocumentRequest) (chunkSize : Z)
  (document : Document) :
  0 < chunkSize ->
  addDocumentWithChunks generateChunkEmbeddings generateEmbedding
    weaviate_addDocument fuel request chunkSize 0 = Some (Ok document) ->
  (forall i chunk,
     nth_error (doc_chunks document) i = Some chunk ->
     dc_content chunk
     = Js.slice (req_content request) (start_position (dc_metadata chunk))
                (end_position (dc_metadata chunk))
     /\ overlap_with_previous (dc_metadata chunk) = 0
     /\ overlap_with_next (dc_metadata chunk) = 0)
  /\ (forall i chunk next,
        nth_error (doc_chunks document) i = Some chunk ->
        nth_error (doc_chunks document) (S i) = Some next ->
        end_position (dc_metadata chunk) = start_position (dc_metadata next))
  /\ position_roundtrip (doc_chunks document).
Proof.
  intros Hc H. unfold addDocumentWithChunks in H.
  destruct (chunkText fuel (req_content request) chunkSize 0) as [textChunks|] eqn:Hchunks;
    [|discriminate H].
  destruct (generateChunkEmbeddings textChunks) as [chunkEmbeddings|e0];
    [|discriminate H].
  destruct (generateEmbedding (req_content request)) as [vec|e1]; [|discriminate H].
  destruct (weaviate_addDocument _) as [[]|e2]; [|discriminate H].
  injection H as <-. cbn [doc_chunks].
  set (text := req_content request) in *.
  pose proof (windowCount_bounds text chunkSize Hc) as Hb.
  assert (Hfacts : forall i chunk,
            nth_error (makeChunks textChunks chunkEmbeddings chunkSize 0 (strlen text)) i
            = Some chunk ->
            dc_content chunk
            = Js.slice text (start_position (dc_metadata chunk))
                       (end_position (dc_metadata chunk))
            /\ overlap_with_previous (dc_metadata chunk) = 0
            /\ overlap_with_next (dc_metadata chunk) = 0
            /\ start_position (dc_metadata chunk) = Z.of_nat i * chunkSize
            /\ end_position (dc_metadata chunk)
               = Z.min ((Z.of_nat i + 1) * chunkSize) (strlen text)
            /\ (Z.of_nat i < zlength textChunks)).
  { intros i chunk Hnth. unfold makeChunks, mapi in Hnth.
    destruct (ChunkClaims.mapi_from_nth_error _ _ _ _ _ Hnth) as [a [Ha ->]].
    rewrite Z.add_0_l. unfold makeChunk. cbn.
    assert (Hov1 : (if Z.of_nat i >? 0 then 0 else 0) = 0)
      by (destruct (Z.of_nat i >? 0); reflexivity).
    assert (Hov2 : (if Z.of_nat i <? zlength textChunks - 1 then 0 else 0) = 0)
      by (destruct (Z.of_nat i <? zlength textChunks - 1); reflexivity).
    rewrite Hov1, Hov2, Z.sub_0_r.
    assert (Hi : Z.of_nat i < zlength textChunks).
    { unfold zlength. apply Nat2Z.inj_lt. apply nth_error_Some. congruence. }
    repeat split; try assumption.
    destruct (chunkText_zero_overlap_result text chunkSize fuel textChunks Hc Hchunks)
      as [[Hle ->]|[Hgt ->]].
    - destruct i as [|i]; [|destruct i; discriminate Ha].
      injection Ha as <-. simpl Z.of_nat. rewrite Z.mul_0_l, Z.add_0_l, Z.mul_1_l.
      rewrite Z.min_r by lia. symmetry. apply slice_full.
    - destruct (nth_error_windows _ _ _ _ _ Ha) as [-> _].
      rewrite Z.add_0_l. reflexivity. }
  assert (Hnext : forall i chunk next,
            nth_error (makeChunks textChunks chunkEmbeddings chunkSize 0 (strlen text)) i
            = Some chunk ->
            nth_error (makeChunks textChunks chunkEmbeddings chunkSize 0 (strlen text)) (S i)
            = Some next ->
            end_position (dc_metadata chunk) = start_position (dc_metadata next)).
  { intros i chunk next Hi Hn.
    destruct (Hfacts i chunk Hi) as [_ [_ [_ [_ [Hend _]]]]].
    destruct (Hfacts (S i) next Hn) as [_ [_ [_ [Hstart [_ Hlen]]]]].
    rewrite Hend, Hstart.
    destruct (chunkText_zero_overlap_result text chunkSize fuel textChunks Hc Hchunks)
      as [[Hle ->]|[Hgt ->]].
    - unfold zlength in Hlen. simpl in Hlen. lia.
    - unfold zlength in Hlen. rewrite length_map, RetryProps.zrange_length in Hlen.
      rewrite Nat2Z.inj_succ in *. nia. }
  split; [|split].
  - intros i chunk Hi. destruct (Hfacts i chunk Hi) as [H1 [H2 [H3 _]]]. auto.
  - exact Hnext.
  - intros i c1 c2 H1 H2.
    destruct (Hfacts i c1 H1) as [_ [_ [Hov _]]]. rewrite Hov, Z.sub_0_r.
    exact (Hnext i c1 c2 H1 H2).
Qed.

Lemma zero_overlap_positions_are_exact_witness :
  exists document,
    addDocumentWithChunks okChunkEmbeddings okEmbedding okStore 3
      (mkRequest "doc" "abcdefgh") 3 0 = Some (Ok document)
    /\ position_roundtrip (doc_chunks document).
Proof.
  eexists. split; [reflexivity|].
  apply (zero_overlap_positions_are_exact okChunkEmbeddings okEmbedding okStore 3
           (mkRequest "doc" "abcdefgh") 3 _ ltac:(lia) eq_refl).
Defined.

End ChunkFurther.
